(** * WTC_toolbox.controller: the controller tuning engine

    A shallow embedding of [src/WTC_toolbox/controller.py]:
    [Controller.__init__], [Controller.tune_controller],
    [ControllerBlocks.peak_shaving] and [ControllerTypes.second_order_PI].

    Conventions.
    - A float64 is a rational number of [Q] and arithmetic is exact: rounding
      is not modelled, numbers are compared with [==] ([Qeq]), and a quotient
      by zero (inf or nan in numpy, [0] in [Q]) lies outside the model.
    - A one-dimensional numpy array is a [list Q]; [a[i]] is stdpp's
      [a !! i], and an in-place store [a[i] = x] is [<[i:=x]> a] after the
      bounds check Python makes.
    - A computation that raises (KeyError, IndexError, ValueError,
      TypeError, NameError), or whose answer is nan, is [None] in the option
      monad; [print] is not modelled.
    - The turbine container and its performance surfaces live in
      [WTC_toolbox/turbine.py]; they are records whose interpolation
      queries are fields, so every statement holds for any surface. *)

From Stdlib Require Import QArith Qround Qminmax Lqa Lia.
From stdpp Require Import gmap strings list.

Open Scope Q_scope.

(** ** numpy *)

Module np.

(** [np.pi] and [np.deg2rad(1)]: the two float64 constants, exactly. *)
Definition pi : Q := 884279719003555 # 281474976710656.
Definition deg2rad1 : Q := 5030569068109113 # 288230376151711744.

(** [np.arange(start, stop, step)]: [ceil((stop - start)/step)] samples
    [start + i*step], none when that count is not positive. *)
Definition arange (start stop step : Q) : list Q :=
  (λ i : nat, start + inject_Z (Z.of_nat i) * step)
    <$> seq 0 (Z.to_nat (Qceiling ((stop - start) / step))).

Definition ones (n : nat) : list Q := replicate n 1.

(** [np.empty(n)]: the contents are unspecified; the callers store into
    every cell before the array is returned. *)
Definition empty (n : nat) : list Q := replicate n 0.

Definition concatenate (a b : list Q) : list Q := a ++ b.

(** [np.max], [np.min]: ValueError on an empty array. *)
Definition max (a : list Q) : option Q :=
  match a with
  | [] => None
  | x :: a' => Some (foldl Qmax x a')
  end.

Definition min (a : list Q) : option Q :=
  match a with
  | [] => None
  | x :: a' => Some (foldl Qmin x a')
  end.

Definition minimum (x y : Q) : Q := Qmin x y.

(** [np.clip(x, lo, hi)] is [minimum(maximum(x, lo), hi)]. *)
Definition clip (x lo hi : Q) : Q := Qmin (Qmax x lo) hi.

(** [np.diff]: successive differences. *)
Fixpoint diff (a : list Q) : list Q :=
  match a with
  | x :: (y :: _) as a' => (y - x) :: diff a'
  | _ => []
  end.

(** Element-wise binary operation on two arrays with numpy's
    broadcasting rule for one dimension: equal lengths pair up, a
    length-one array is stretched, anything else is a ValueError. *)
Definition broadcast (f : Q → Q → Q) (a b : list Q) : option (list Q) :=
  if decide (length a = length b) then Some (zip_with f a b)
  else match a, b with
       | [x], _ => Some (f x <$> b)
       | _, [y] => Some ((λ x, f x y) <$> a)
       | _, _ => None
       end.

Definition mul := broadcast Qmult.
Definition sub := broadcast Qminus.
Definition div := broadcast Qdiv.

Definition sum (a : list Q) : Q := foldr Qplus 0 a.

(** [a[lo:hi]]: a Python slice with both bounds given and no step;
    bounds beyond the end are clamped. *)
Definition slice (lo hi : nat) (a : list Q) : list Q :=
  take (hi - lo) (drop lo a).

(** [np.polyfit(x, y, 1)]: the coefficients [(p0, p1)] of the
    least-squares line [p0*x + p1], highest degree first.  TypeError when
    the lengths differ or [x] is empty.  With exact arithmetic the
    scaled-Vandermonde solve of numpy is the solution of the normal
    equations when they are regular (the abscissae are not all equal).
    When they are singular numpy answers with the solution of least norm
    in the scaled unknowns, [(ybar/(2*x0), ybar/2)] for abscissae all
    equal to [x0], and has no finite answer for [x0 = 0]. *)
Definition polyfit (x y : list Q) : option (Q * Q) :=
  if decide (length x = length y) then
    match x with
    | [] => None
    | x0 :: _ =>
        let n := inject_Z (Z.of_nat (length x)) in
        let Sx := sum x in
        let Sy := sum y in
        let Sxx := sum (zip_with Qmult x x) in
        let Sxy := sum (zip_with Qmult x y) in
        let det := n * Sxx - Sx * Sx in
        if Qeq_bool det 0 then
          if Qeq_bool x0 0 then None
          else Some (Sy / n / (2 * x0), Sy / n / 2)
        else
          let p0 := (n * Sxy - Sx * Sy) / det in
          Some (p0, (Sy - p0 * Sx) / n)
    end
  else None.

End np.

(** ** scipy.interpolate *)

Module interpolate.

(** The interpolant built by [interp1d(x, y, kind='linear')]: the sample
    pairs sorted by abscissa, and what to do outside them. *)
Record interp1d_obj := {
  xy : list (Q * Q);
  bounds_error : bool;
  fill_value : option (Q * Q)
}.

(** Stable insertion of a pair by abscissa (argsort with mergesort is
    stable: a pair goes after the pairs of equal abscissa). *)
Fixpoint insert_sorted (p : Q * Q) (l : list (Q * Q)) : list (Q * Q) :=
  match l with
  | [] => [p]
  | q :: l' =>
      if Qle_bool q.1 p.1 then q :: insert_sorted p l' else p :: q :: l'
  end.

Definition argsort_pairs (l : list (Q * Q)) : list (Q * Q) :=
  foldl (λ acc p, insert_sorted p acc) [] l.

(** [interp1d(x, y, bounds_error=..., fill_value=...)].  ValueError when
    the lengths differ or there is no sample; one sample alone
    interpolates to nan. [bounds_error] defaults to [True] when no
    [fill_value] is given. *)
Definition interp1d (x y : list Q) (bounds_error : bool)
    (fill_value : option (Q * Q)) : option interp1d_obj :=
  if decide (length x = length y) then
    if decide (2 ≤ length x)%nat then
      Some {| xy := argsort_pairs (zip x y);
              bounds_error := bounds_error;
              fill_value := fill_value |}
    else None
  else None.

Definition Qltb (a b : Q) : bool := negb (Qle_bool b a).

(** [np.searchsorted(xs, x_new)] with [side='left'] on the sorted
    samples: how many of them lie strictly below [x_new]. *)
Fixpoint searchsorted (l : list (Q * Q)) (x_new : Q) : nat :=
  match l with
  | [] => 0
  | p :: l' => if Qltb p.1 x_new then S (searchsorted l' x_new) else 0
  end.

(** Calling the interpolant at [x_new]: the bracketing index is
    clipped to [1 .. len-1], the value lies on the chord through the two
    bracketing samples; outside the samples it is a ValueError with
    [bounds_error], else the fill value of that side (nan without one). *)
Definition call (f : interp1d_obj) (x_new : Q) : option Q :=
  let l := xy f in
  let i := Nat.min (Nat.max (searchsorted l x_new) 1) (length l - 1) in
  '(x_lo, y_lo) ← l !! (i - 1)%nat;
  '(x_hi, y_hi) ← l !! i;
  '(x_first, _) ← head l;
  '(x_last, _) ← last l;
  let slope := (y_hi - y_lo) / (x_hi - x_lo) in
  let y_new := slope * (x_new - x_lo) + y_lo in
  let below := Qltb x_new x_first in
  let above := Qltb x_last x_new in
  if bounds_error f then
    if below || above then None else Some y_new
  else
    match fill_value f with
    | Some (fill_below, fill_above) =>
        Some (if below then fill_below
              else if above then fill_above else y_new)
    | None => if below || above then None else Some y_new
    end.

End interpolate.

(** ** Python values and control *)

(** A value of the controller-parameter dictionary: [None], a [bool] or a
    number. *)
Inductive PyVal :=
  | PyNone
  | PyBool (b : bool)
  | PyNum (q : Q).

(** Truth value of [if x:]. *)
Definition truthy (x : PyVal) : bool :=
  match x with
  | PyNone => false
  | PyBool b => b
  | PyNum q => negb (Qeq_bool q 0)
  end.

(** The number a value stands for in arithmetic; TypeError for [None]. *)
Definition as_num (x : PyVal) : option Q :=
  match x with
  | PyNone => None
  | PyBool b => Some (if b then 1 else 0)
  | PyNum q => Some q
  end.

(** [a[i] = x]: IndexError when [i] is out of range. *)
Definition store (i : nat) (x : Q) (a : list Q) : option (list Q) :=
  if decide (i < length a)%nat then Some (<[i:=x]> a) else None.

(** [for i in range(n): body], threading the variables the body assigns
    and stopping at the first exception. *)
Definition for_range {S : Type} (n : nat) (body : nat → S → option S)
    (s : S) : option S :=
  foldl (λ acc i, acc ≫= body i) (Some s) (seq 0 n).

Definition deg2rad : Q := np.deg2rad1.

(** ** Data model *)

(** Modelled from the spec: the performance surface of
    [WTC_toolbox/turbine.py] (section 6, PerformanceSurface contract):
    the optimal tip-speed ratio, the maximum value, the evaluation at a
    point, the slice over a pitch grid at one tip-speed ratio, and the
    gradient at a point. *)
Record RotorPerformance := {
  TSR_opt : Q;
  surf_max : Q;
  interp_surface : Q → Q → Q;
  interp_surface_slice : list Q → Q → list Q;
  interp_gradient : Q → Q → Q * Q
}.

(** Modelled from the spec: the turbine container of
    [WTC_toolbox/turbine.py] (section 3, TurbineModel), with the fields
    the tuning reads. *)
Record Turbine := {
  J : Q;
  rho : Q;
  rotor_radius : Q;
  Ng : Q;
  rated_rotor_speed : Q;
  v_rated : Q;
  v_min : Q;
  v_max : Q;
  Cp : RotorPerformance;
  Ct : RotorPerformance;
  pitch_initial_rad : list Q;
  TSR_initial : list Q
}.

(** The attributes [Controller.__init__] sets. *)
Record Controller := {
  LoggingLevel : PyVal;
  F_LPFType : PyVal;
  F_NotchType : PyVal;
  IPC_ControlMode : PyVal;
  VS_ControlMode : PyVal;
  PC_ControlMode : PyVal;
  Y_ControlMode : PyVal;
  SS_Mode : PyVal;
  WE_Mode : PyVal;
  PS_Mode : PyVal;
  zeta_pc : PyVal;
  omega_pc : PyVal;
  zeta_vs : PyVal;
  omega_vs : PyVal;
  min_pitch : PyVal;
  max_pitch : PyVal;
  ss_vsgain : PyVal;
  ss_pcgain : PyVal;
  ss_cornerfreq : PyVal;
  ps_percent : PyVal
}.

(** The attributes of a [ControllerTypes] object after
    [second_order_PI]. *)
Record ControllerTypes := {
  Kp : list Q;
  Ki : list Q
}.

(** The attributes [tune_controller] sets on the controller before it
    runs peak shaving. *)
Record Tuned := {
  pc_gain_schedule : ControllerTypes;
  vs_gain_schedule : ControllerTypes;
  vs_rgn2K : Q;
  vs_refspd : Q;
  vs_minspd : Q;
  v : list Q;
  v_below_rated : list Q;
  Cp_op : list Q;
  pitch_op : list Q;
  pitch_op_pc : list Q;
  TSR_op : list Q;
  A : list Q;
  B_beta : list Q;
  B_tau : list Q
}.

(** The attributes of a [ControllerBlocks] object after [peak_shaving];
    [v_ps] is its attribute [v]. *)
Record ControllerBlocks := {
  Tshaved : list Q;
  pitch_min : list Q;
  v_ps : list Q;
  Ct_max : list Q;
  Ct_op : list Q;
  T : list Q
}.

(** ** Controller.__init__ *)

(** [if d[k]: d[k] else: default], KeyError when [k] is missing. *)
Definition optional (controller_params : gmap string PyVal) (k : string)
    (default : PyVal) : option PyVal :=
  x ← controller_params !! k;
  Some (if truthy x then x else default).

Definition __init__ (controller_params : gmap string PyVal)
    : option Controller :=
  LoggingLevel ← controller_params !! "LoggingLevel"%string;
  F_LPFType ← controller_params !! "F_LPFType"%string;
  F_NotchType ← controller_params !! "F_NotchType"%string;
  IPC_ControlMode ← controller_params !! "IPC_ControlMode"%string;
  VS_ControlMode ← controller_params !! "VS_ControlMode"%string;
  PC_ControlMode ← controller_params !! "PC_ControlMode"%string;
  Y_ControlMode ← controller_params !! "Y_ControlMode"%string;
  SS_Mode ← controller_params !! "SS_Mode"%string;
  WE_Mode ← controller_params !! "WE_Mode"%string;
  PS_Mode ← controller_params !! "PS_Mode"%string;
  zeta_pc ← controller_params !! "zeta_pc"%string;
  omega_pc ← controller_params !! "omega_pc"%string;
  zeta_vs ← controller_params !! "zeta_vs"%string;
  omega_vs ← controller_params !! "omega_vs"%string;
  min_pitch ← optional controller_params "min_pitch" (PyNum 0);
  max_pitch ← optional controller_params "max_pitch" (PyNum (90 * deg2rad));
  ss_vsgain ← optional controller_params "ss_vsgain" (PyNum 1);
  ss_pcgain ← optional controller_params "ss_pcgain" (PyNum 0.001);
  ss_cornerfreq ←
    optional controller_params "ss_cornerfreq" (PyNum 0.62831850001);
  ps_percent ← optional controller_params "ps_percent" (PyNum 0.75);
  Some {| LoggingLevel := LoggingLevel; F_LPFType := F_LPFType;
          F_NotchType := F_NotchType; IPC_ControlMode := IPC_ControlMode;
          VS_ControlMode := VS_ControlMode;
          PC_ControlMode := PC_ControlMode; Y_ControlMode := Y_ControlMode;
          SS_Mode := SS_Mode; WE_Mode := WE_Mode; PS_Mode := PS_Mode;
          zeta_pc := zeta_pc; omega_pc := omega_pc; zeta_vs := zeta_vs;
          omega_vs := omega_vs; min_pitch := min_pitch;
          max_pitch := max_pitch; ss_vsgain := ss_vsgain;
          ss_pcgain := ss_pcgain; ss_cornerfreq := ss_cornerfreq;
          ps_percent := ps_percent |}.

(** ** ControllerTypes.second_order_PI *)

(** The values of the line [p[0]*v + p[1]] at every sample of [v]. *)
Definition polyval1 (p : Q * Q) (v : list Q) : list Q :=
  (λ x, p.1 * x + p.2) <$> v.

Definition second_order_PI (zeta om_n : Q) (A B : list Q)
    (linearize : bool) (v : option (list Q)) : option ControllerTypes :=
  '(A, B) ←
    (if linearize then
       v ← v;
       pA ← np.polyfit v A;
       pB ← np.polyfit v B;
       Some (polyval1 pA v, polyval1 pB v)
     else Some (A, B));
  Kp ← np.mul ((λ b, 1 / b) <$> B) ((λ a, 2 * zeta * om_n + a) <$> A);
  Some {| Kp := Kp; Ki := (λ b, om_n ^ 2 / b) <$> B |}.

(** ** ControllerBlocks.peak_shaving *)

(** [0.5 * rho * A * v**2], the thrust per unit thrust coefficient. *)
Definition thrust_factor (turbine : Turbine) (v : list Q) : list Q :=
  let R := rotor_radius turbine in
  let A := np.pi * R ^ 2 in
  (λ x, 0.5 * rho turbine * A * x ^ 2) <$> v.

(** Body of the first loop; the state is [Ct_op] and the binding of [T],
    which does not exist before the first iteration. *)
Definition unshaved_body (controller : Tuned) (turbine : Turbine) (i : nat)
    (s : list Q * option (list Q)) : option (list Q * option (list Q)) :=
  let '(Ct_op, _) := s in
  pitch ← pitch_op controller !! i;
  tsr ← TSR_op controller !! i;
  Ct_op ← store i (interp_surface (Ct turbine) pitch tsr) Ct_op;
  T ← np.mul (thrust_factor turbine (v controller)) Ct_op;
  Some (Ct_op, Some T).

(** Body of the second loop; the state is [Ct_op], [Ct_max], [pitch_min]. *)
Definition shave_body (controller : Tuned) (turbine : Turbine)
    (T : list Q) (Tmax : Q) (i : nat) (s : list Q * list Q * list Q)
    : option (list Q * list Q * list Q) :=
  let '(Ct_op, Ct_max, pitch_min) := s in
  let R := rotor_radius turbine in
  let A := np.pi * R ^ 2 in
  tsr ← TSR_op controller !! i;
  let Ct_tsr := interp_surface_slice (Ct turbine) (pitch_initial_rad turbine) tsr in
  v_i ← v controller !! i;
  let ceiling := Tmax / (0.5 * rho turbine * A * v_i ^ 2) in
  Ct_max ← store i ceiling Ct_max;
  T_i ← T !! i;
  '(Ct_op, Ct_max) ←
    (if interpolate.Qltb Tmax T_i then
       Ct_op ← store i ceiling Ct_op;
       Some (Ct_op, Ct_max)
     else
       m ← np.max Ct_tsr;
       Ct_max ← store i (np.minimum m ceiling) Ct_max;
       Some (Ct_op, Ct_max));
  pitch_first ← head (pitch_initial_rad turbine);
  pitch_last ← last (pitch_initial_rad turbine);
  f_pitch_min ← interpolate.interp1d Ct_tsr (pitch_initial_rad turbine)
                   false (Some (pitch_first, pitch_last));
  Ct_max_i ← Ct_max !! i;
  p ← interpolate.call f_pitch_min Ct_max_i;
  pitch_min ← store i p pitch_min;
  Some (Ct_op, Ct_max, pitch_min).

(** [peak_shaving(self, controller, turbine)]: [self_] holds the
    constructor's attributes of [controller] and [controller] the ones
    [tune_controller] has stored. *)
Definition peak_shaving (self_ : Controller) (controller : Tuned)
    (turbine : Turbine) : option ControllerBlocks :=
  let n := length (TSR_op controller) in
  '(Ct_op, T) ←
    for_range n (unshaved_body controller turbine) (np.empty n, None);
  T ← T;
  ps_percent ← as_num (ps_percent self_);
  T_peak ← np.max T;
  let Tmax := ps_percent * T_peak in
  min_pitch ← as_num (min_pitch self_);
  let pitch_min :=
    (λ x, x * min_pitch) <$> np.ones (length (pitch_op controller)) in
  '(Ct_op, Ct_max, pitch_min) ←
    for_range n (shave_body controller turbine T Tmax)
      (Ct_op, np.empty n, pitch_min);
  Tshaved ← np.mul (thrust_factor turbine (v controller)) Ct_op;
  Some {| Tshaved := Tshaved; pitch_min := pitch_min;
          v_ps := v controller; Ct_max := Ct_max; Ct_op := Ct_op;
          T := T |}.

(** ** Controller.tune_controller *)

(** *** Operating points *)

Definition TSR_rated (turbine : Turbine) : Q :=
  rated_rotor_speed turbine * rotor_radius turbine / v_rated turbine.

Definition v_below_rated_of (turbine : Turbine) : list Q :=
  np.arange (v_min turbine) (v_rated turbine) 0.5.

Definition v_above_rated_of (turbine : Turbine) : list Q :=
  np.arange (v_rated turbine + 0.5) (v_max turbine) 0.5.

Definition TSR_below_rated_of (turbine : Turbine) : list Q :=
  (λ x, x * TSR_opt (Cp turbine))
    <$> np.ones (length (v_below_rated_of turbine)).

Definition TSR_above_rated_of (turbine : Turbine) : list Q :=
  (λ x, rated_rotor_speed turbine * rotor_radius turbine / x)
    <$> v_above_rated_of turbine.

(** The power-coefficient targets before they are saturated on the
    surface; IndexError when there is no above-rated wind speed. *)
Definition Cp_op_target (turbine : Turbine) : option (list Q) :=
  tsr0 ← TSR_above_rated_of turbine !! 0%nat;
  let Cp_above_rated := interp_surface (Cp turbine) 0 tsr0 in
  let Cp_op_br :=
    (λ x, x * surf_max (Cp turbine))
      <$> np.ones (length (v_below_rated_of turbine)) in
  let Cp_op_ar :=
    (λ x, Cp_above_rated * (x / TSR_rated turbine) ^ 3)
      <$> TSR_above_rated_of turbine in
  Some (np.concatenate Cp_op_br Cp_op_ar).

(** *** Linearized state matrices *)

(** Body of the loop over the operating points; the state is [Cp_op],
    [pitch_op], [dCp_beta], [dCp_TSR]. *)
Definition linearize_body (turbine : Turbine) (TSR_op : list Q) (i : nat)
    (s : list Q * list Q * list Q * list Q)
    : option (list Q * list Q * list Q * list Q) :=
  let '(Cp_op, pitch_op, dCp_beta, dCp_TSR) := s in
  tsr ← TSR_op !! i;
  let Cp_TSR :=
    interp_surface_slice (Cp turbine) (pitch_initial_rad turbine) tsr in
  Cp_i ← Cp_op !! i;
  lo ← np.min Cp_TSR;
  hi ← np.max Cp_TSR;
  Cp_op ← store i (np.clip Cp_i lo hi) Cp_op;
  f_cp_pitch ←
    interpolate.interp1d Cp_TSR (pitch_initial_rad turbine) true None;
  Cp_i ← Cp_op !! i;
  p ← interpolate.call f_cp_pitch Cp_i;
  pitch_op ← store i p pitch_op;
  pitch_i ← pitch_op !! i;
  let g := interp_gradient (Cp turbine) pitch_i tsr in
  dCp_beta ← store i g.1 dCp_beta;
  dCp_TSR ← store i g.2 dCp_TSR;
  Some (Cp_op, pitch_op, dCp_beta, dCp_TSR).

(** [Ng/2*rho*Ar*R], the factor shared by the torque derivatives. *)
Definition torque_factor (turbine : Turbine) : Q :=
  let R := rotor_radius turbine in
  let Ar := np.pi * R ^ 2 in
  Ng turbine / 2 * rho turbine * Ar * R.

Definition dtau_dbeta_of (turbine : Turbine) (v TSR_op dCp_dbeta : list Q)
    : option (list Q) :=
  a ← np.mul ((λ x, torque_factor turbine * (1 / x)) <$> TSR_op) dCp_dbeta;
  np.mul a ((λ x, x ^ 2) <$> v).

Definition dtau_dlambda_of (turbine : Turbine)
    (v TSR_op dCp_dTSR Cp_op : list Q) : option (list Q) :=
  a ← np.mul ((λ x, torque_factor turbine * x ^ 2) <$> v)
             ((λ x, 1 / x ^ 2) <$> TSR_op);
  b ← np.mul dCp_dTSR TSR_op;
  b ← np.sub b Cp_op;
  np.mul a b.

Definition dlambda_domega_of (turbine : Turbine) (v : list Q) : list Q :=
  (λ x, rotor_radius turbine / x / Ng turbine) <$> v.

(** *** The whole tuning *)

Definition tune_controller (self_ : Controller) (turbine : Turbine)
    : option (Tuned * ControllerBlocks) :=
  let J := J turbine in
  let rho := rho turbine in
  let R := rotor_radius turbine in
  let Ar := np.pi * R ^ 2 in
  let Ng := Ng turbine in
  let rated_rotor_speed := rated_rotor_speed turbine in
  let v_below_rated := v_below_rated_of turbine in
  let v_above_rated := v_above_rated_of turbine in
  let v := np.concatenate v_below_rated v_above_rated in
  let TSR_op :=
    np.concatenate (TSR_below_rated_of turbine)
                   (TSR_above_rated_of turbine) in
  Cp_op ← Cp_op_target turbine;
  let n := length TSR_op in
  '(Cp_op, pitch_op, dCp_beta, dCp_TSR) ←
    for_range n (linearize_body turbine TSR_op)
      (Cp_op, np.empty n, np.empty n, np.empty n);
  dpitch ← np.diff (pitch_initial_rad turbine) !! 0%nat;
  let dCp_dbeta := (λ x, x / dpitch) <$> dCp_beta in
  dTSR ← np.diff (TSR_initial turbine) !! 0%nat;
  let dCp_dTSR := (λ x, x / dTSR) <$> dCp_TSR in
  dtau_dbeta ← dtau_dbeta_of turbine v TSR_op dCp_dbeta;
  dtau_dlambda ← dtau_dlambda_of turbine v TSR_op dCp_dTSR Cp_op;
  let dlambda_domega := dlambda_domega_of turbine v in
  dtau_domega ← np.mul dtau_dlambda dlambda_domega;
  let A := (λ x, x / J) <$> dtau_domega in
  let B_tau := - Ng ^ 2 / J in
  let B_beta := (λ x, x / J) <$> dtau_dbeta in
  q ← np.div TSR_op v;
  let dlambda_dv := Qopp <$> q in
  _ ← np.mul dtau_dlambda dlambda_dv;
  let A_vs := np.slice 0 (length v_below_rated) A in
  let A_pc := np.slice (length v_below_rated) (length v) A in
  let B_tau := (λ x, B_tau * x) <$> np.ones (length v_below_rated) in
  let B_beta := np.slice (length v_below_rated) (length v) B_beta in
  zeta_pc ← as_num (zeta_pc self_);
  omega_pc ← as_num (omega_pc self_);
  pc_gain_schedule ←
    second_order_PI zeta_pc omega_pc A_pc B_beta true (Some v_above_rated);
  zeta_vs ← as_num (zeta_vs self_);
  omega_vs ← as_num (omega_vs self_);
  vs_gain_schedule ←
    second_order_PI zeta_vs omega_vs A_vs B_tau false (Some v_below_rated);
  let stored :=
    {| pc_gain_schedule := pc_gain_schedule;
       vs_gain_schedule := vs_gain_schedule;
       vs_rgn2K :=
         0.5 * rho * Ar * R ^ 5 * surf_max (Cp turbine)
           / (TSR_opt (Cp turbine) ^ 3 * Ng);
       vs_refspd :=
         Qmin (TSR_opt (Cp turbine) * v_rated turbine / R)
              rated_rotor_speed * Ng;
       vs_minspd := TSR_opt (Cp turbine) * v_min turbine / R * Ng;
       v := v;
       v_below_rated := v_below_rated;
       Cp_op := Cp_op;
       pitch_op := pitch_op;
       pitch_op_pc := np.slice (length v_below_rated) (length v) pitch_op;
       TSR_op := TSR_op;
       A := A;
       B_beta := B_beta;
       B_tau := B_tau |} in
  ps ← peak_shaving self_ stored turbine;
  Some (stored, ps).

(** ** A concrete turbine

    A small rotor used to run the tuning end to end: surfaces that fall
    linearly with pitch, a pitch grid from -0.1 rad in steps of 0.1, cut-in
    at 3 m/s, rated at 11.4 m/s and cut-out at 25 m/s. *)

Definition example_Cp : RotorPerformance := {|
  TSR_opt := 7.5;
  surf_max := 0.48;
  interp_surface := λ p tsr, 0.48 - p - (tsr - 7.5) ^ 2 / 100;
  interp_surface_slice :=
    λ ps tsr, (λ p, 0.48 - p - (tsr - 7.5) ^ 2 / 100) <$> ps;
  interp_gradient := λ p tsr, (-1, - (tsr - 7.5) / 50)
|}.

Definition example_Ct : RotorPerformance := {|
  TSR_opt := 9;
  surf_max := 1;
  interp_surface := λ p tsr, 0.8 - 2 * p;
  interp_surface_slice := λ ps tsr, (λ p, 0.8 - 2 * p) <$> ps;
  interp_gradient := λ p tsr, (-2, 0)
|}.

Definition example_turbine : Turbine := {|
  J := 40000000;
  rho := 1.225;
  rotor_radius := 63;
  Ng := 97;
  rated_rotor_speed := 1.267;
  v_rated := 11.4;
  v_min := 3;
  v_max := 25;
  Cp := example_Cp;
  Ct := example_Ct;
  pitch_initial_rad := [-0.1; 0; 0.1; 0.2; 0.3; 0.4];
  TSR_initial := [2; 2.5; 3]
|}.

(** A parameter dictionary that leaves [max_pitch] and [ss_cornerfreq]
    unset, asks for a zero [min_pitch] and for [ps_percent = 1.0]. *)
Definition example_params : gmap string PyVal :=
  list_to_map
    [("LoggingLevel", PyNum 1); ("F_LPFType", PyNum 1);
     ("F_NotchType", PyNum 0); ("IPC_ControlMode", PyNum 0);
     ("VS_ControlMode", PyNum 2); ("PC_ControlMode", PyNum 1);
     ("Y_ControlMode", PyNum 0); ("SS_Mode", PyNum 1);
     ("WE_Mode", PyNum 0); ("PS_Mode", PyNum 0);
     ("zeta_pc", PyNum 0.7); ("omega_pc", PyNum 0.6);
     ("zeta_vs", PyNum 0.7); ("omega_vs", PyNum 0.3);
     ("min_pitch", PyNum 0); ("max_pitch", PyNone);
     ("ss_vsgain", PyNum 1); ("ss_pcgain", PyNum 0.001);
     ("ss_cornerfreq", PyNone); ("ps_percent", PyNum 1)]%string.

Definition example_controller : Controller := {|
  LoggingLevel := PyNum 1; F_LPFType := PyNum 1; F_NotchType := PyNum 0;
  IPC_ControlMode := PyNum 0; VS_ControlMode := PyNum 2;
  PC_ControlMode := PyNum 1; Y_ControlMode := PyNum 0; SS_Mode := PyNum 1;
  WE_Mode := PyNum 0; PS_Mode := PyNum 0;
  zeta_pc := PyNum 0.7; omega_pc := PyNum 0.6;
  zeta_vs := PyNum 0.7; omega_vs := PyNum 0.3;
  min_pitch := PyNum 0; max_pitch := PyNum (90 * deg2rad);
  ss_vsgain := PyNum 1; ss_pcgain := PyNum 0.001;
  ss_cornerfreq := PyNum 0.62831850001; ps_percent := PyNum 1
|}.

(** ** Arrays, stores and loops *)

Lemma store_Some i x a a' :
  store i x a = Some a' → a' = <[i:=x]> a ∧ (i < length a)%nat.
Proof. unfold store. case_decide; naive_solver. Qed.

Lemma store_length i x a a' : store i x a = Some a' → length a' = length a.
Proof. intros [-> _]%store_Some. apply length_insert. Qed.

Lemma store_lookup_eq i x a a' : store i x a = Some a' → a' !! i = Some x.
Proof. intros [-> ?]%store_Some. by apply list_lookup_insert_eq. Qed.

Lemma store_lookup_ne i j x a a' :
  store i x a = Some a' → i ≠ j → a' !! j = a !! j.
Proof. intros [-> ?]%store_Some ?. by apply list_lookup_insert_ne. Qed.

(** Loop invariant rule: a property indexed by the number of completed
    iterations, established before the loop and kept by every
    successful iteration, holds of the final state. *)
Lemma for_range_ind {S : Type} (P : nat → S → Prop) n
    (body : nat → S → option S) s s' :
  P 0%nat s →
  (∀ i x y, (i < n)%nat → P i x → body i x = Some y → P (Datatypes.S i) y) →
  for_range n body s = Some s' → P n s'.
Proof.
  unfold for_range. intros H0 Hstep. revert s'.
  induction n as [|n IH]; intros s'.
  - simpl. by intros [= <-].
  - rewrite seq_S, foldl_app. simpl. intros Hn.
    apply bind_Some in Hn as (x & Hx & Hb).
    apply (Hstep n x); [lia| |done].
    apply IH; [|done]. intros i a b ?. apply Hstep. lia.
Qed.

Lemma broadcast_Some_length f a b c :
  np.broadcast f a b = Some c → length a = length b →
  c = zip_with f a b ∧ length c = length a.
Proof.
  unfold np.broadcast. intros H Hl. rewrite decide_True in H by done.
  injection H as <-. split; [done|].
  rewrite length_zip_with. lia.
Qed.

Lemma broadcast_same_length f a b :
  length a = length b → np.broadcast f a b = Some (zip_with f a b).
Proof. intros Hl. unfold np.broadcast. by rewrite decide_True. Qed.

(** ** Controller.__init__: defaulting of the optional parameters *)

Lemma truthy_false_iff x :
  truthy x = false ↔
  x = PyNone ∨ x = PyBool false ∨ ∃ q, x = PyNum q ∧ q == 0.
Proof.
  destruct x as [|[]|q]; simpl.
  - naive_solver.
  - split; [done|]. intros [?|[?|(? & ? & ?)]]; congruence.
  - naive_solver.
  - rewrite negb_false_iff, Qeq_bool_iff. split; [eauto|].
    intros [?|[?|(q' & [= <-] & ?)]]; done.
Qed.

Lemma optional_Some params k d x :
  params !! k = Some x →
  optional params k d = Some (if truthy x then x else d).
Proof. intros H. unfold optional. by rewrite H. Qed.

(** The keys [Controller.__init__] reads. *)
Definition init_keys : list string :=
  ["LoggingLevel"; "F_LPFType"; "F_NotchType"; "IPC_ControlMode";
   "VS_ControlMode"; "PC_ControlMode"; "Y_ControlMode"; "SS_Mode";
   "WE_Mode"; "PS_Mode"; "zeta_pc"; "omega_pc"; "zeta_vs"; "omega_vs";
   "min_pitch"; "max_pitch"; "ss_vsgain"; "ss_pcgain"; "ss_cornerfreq";
   "ps_percent"]%string.

(** C4.  When the dictionary holds every key the constructor reads, the
    constructor returns a controller (the substitution raises nothing),
    and each of the six optional attributes is the supplied value when
    that value is truthy and the default otherwise: 0 for [min_pitch],
    [90*deg2rad] (1.5707963267...) for [max_pitch], 1 for [ss_vsgain],
    0.001 for [ss_pcgain], 0.62831850001 for [ss_cornerfreq] and 0.75 for
    [ps_percent].  The falsy values are [None], [False] and a zero. *)
Theorem init_optional_defaults (controller_params : gmap string PyVal) :
  (∀ k, k ∈ init_keys → is_Some (controller_params !! k)) →
  ∃ c, __init__ controller_params = Some c ∧
    (∀ x, controller_params !! "min_pitch"%string = Some x →
          min_pitch c = if truthy x then x else PyNum 0) ∧
    (∀ x, controller_params !! "max_pitch"%string = Some x →
          max_pitch c = if truthy x then x else PyNum (90 * deg2rad)) ∧
    (∀ x, controller_params !! "ss_vsgain"%string = Some x →
          ss_vsgain c = if truthy x then x else PyNum 1) ∧
    (∀ x, controller_params !! "ss_pcgain"%string = Some x →
          ss_pcgain c = if truthy x then x else PyNum 0.001) ∧
    (∀ x, controller_params !! "ss_cornerfreq"%string = Some x →
          ss_cornerfreq c = if truthy x then x else PyNum 0.62831850001) ∧
    (∀ x, controller_params !! "ps_percent"%string = Some x →
          ps_percent c = if truthy x then x else PyNum 0.75) ∧
    (∀ x, truthy x = false ↔
          x = PyNone ∨ x = PyBool false ∨ ∃ q, x = PyNum q ∧ q == 0) ∧
    1.5707963267 < 90 * deg2rad < 1.5707963268 ∧
    0.628 < 0.62831850001 < 0.629.
Proof.
  intros Hkeys.
  assert (Hk : Forall (λ k, is_Some (controller_params !! k)) init_keys).
  { apply Forall_forall. intros k Hk. apply Hkeys. exact Hk. }
  unfold init_keys in Hk.
  repeat match goal with
         | H : Forall _ (_ :: _) |- _ =>
             apply Forall_cons in H as [[? ?] H]
         end.
  unfold __init__.
  repeat match goal with
         | H : controller_params !! ?k = Some ?x |- _ =>
             first [ rewrite (optional_Some _ k _ x H)
                   | rewrite H ]; simpl;
             revert H
         end.
  intros. eexists. split; [reflexivity|]. simpl.
  repeat split; try apply truthy_false_iff; try (vm_compute; reflexivity).
  all: intros y Hy; by simplify_eq.
Qed.

Lemma init_optional_defaults_witness :
  (∀ k, k ∈ init_keys → is_Some (example_params !! k)) ∧
  ∃ c, __init__ example_params = Some c ∧
       min_pitch c = PyNum 0 ∧ max_pitch c = PyNum (90 * deg2rad) ∧
       ps_percent c = PyNum 1.
Proof.
  assert (H : ∀ k, k ∈ init_keys → is_Some (example_params !! k)).
  { intros k Hk. unfold init_keys in Hk.
    repeat (apply elem_of_cons in Hk as [->|Hk]; [vm_compute; eauto|]).
    by apply elem_of_nil in Hk. }
  split; [exact H|].
  destruct (init_optional_defaults example_params H)
    as (c & Hc & Hmin & Hmax & _ & _ & _ & Hps & _).
  exists c. split; [exact Hc|]. split; [|split].
  - apply (Hmin (PyNum 0)). vm_compute; reflexivity.
  - apply (Hmax PyNone). vm_compute; reflexivity.
  - apply (Hps (PyNum 1)). vm_compute; reflexivity.
Defined.

(** ** ControllerTypes.second_order_PI *)

Lemma second_order_PI_direct zeta om_n (A B : list Q) v :
  length A = length B →
  second_order_PI zeta om_n A B false v =
    Some {| Kp := zip_with Qmult ((λ b, 1 / b) <$> B)
                    ((λ a, 2 * zeta * om_n + a) <$> A);
            Ki := (λ b, om_n ^ 2 / b) <$> B |}.
Proof.
  intros Hl. unfold second_order_PI, np.mul. simpl.
  rewrite broadcast_same_length; [done|].
  rewrite !length_fmap. done.
Qed.

(** C3.  Without linearization, for a damping ratio and a natural frequency
    that are positive and sequences [A], [B] of one length with no zero in
    [B], [second_order_PI] returns, whatever [v] is, gains of that same
    length with [Kp[i] = (2*zeta*om_n + A[i]) / B[i]] and
    [Ki[i] = om_n^2 / B[i]] at every index. *)
Theorem second_order_PI_gains zeta om_n (A B : list Q) v :
  0 < zeta → 0 < om_n → length A = length B →
  (∀ b, b ∈ B → ¬ b == 0) →
  ∃ r, second_order_PI zeta om_n A B false v = Some r ∧
       length (Kp r) = length A ∧ length (Ki r) = length B ∧
       ∀ i a b, A !! i = Some a → B !! i = Some b →
         ∃ kp ki, Kp r !! i = Some kp ∧ Ki r !! i = Some ki ∧
                  kp == (2 * zeta * om_n + a) / b ∧ ki == om_n ^ 2 / b.
Proof.
  intros _ _ Hl HB. eexists. split; [by apply second_order_PI_direct|].
  simpl. split; [|split].
  - rewrite length_zip_with, !length_fmap. lia.
  - by rewrite length_fmap.
  - intros i a b Ha Hb.
    exists (1 / b * (2 * zeta * om_n + a)), (om_n ^ 2 / b).
    split; [|split; [|split]].
    + rewrite lookup_zip_with, !list_lookup_fmap, Ha, Hb. done.
    + by rewrite list_lookup_fmap, Hb.
    + field. apply HB. by apply list_elem_of_lookup_2 in Hb.
    + reflexivity.
Qed.

Lemma second_order_PI_gains_witness :
  ∃ r, second_order_PI 0.7 0.3 [-0.02; -0.05; -0.1] [-4; -5; -8] false None
         = Some r ∧
       length (Kp r) = 3%nat ∧
       ∃ kp, Kp r !! 1%nat = Some kp ∧ kp == (2 * 0.7 * 0.3 + -0.05) / -5.
Proof.
  destruct (second_order_PI_gains 0.7 0.3 [-0.02; -0.05; -0.1] [-4; -5; -8]
              None) as (r & Hr & HKp & _ & Hi).
  - reflexivity.
  - reflexivity.
  - reflexivity.
  - intros b Hb.
    repeat (apply elem_of_cons in Hb as [->|Hb]; [by vm_compute|]).
    by apply elem_of_nil in Hb.
  - exists r. split; [exact Hr|]. split; [exact HKp|].
    destruct (Hi 1%nat (-0.05) (-5) eq_refl eq_refl)
      as (kp & ki & Hkp & _ & Hv & _).
    exists kp. split; [exact Hkp | exact Hv].
Defined.

(** C10.  Without linearization the result of [second_order_PI] does not
    depend on [v]: any two values of [v], the default [None] among them,
    give the same [Kp] and [Ki] (and the same failure, if any). *)
Theorem second_order_PI_ignores_v zeta om_n (A B : list Q)
    (v1 v2 : option (list Q)) :
  second_order_PI zeta om_n A B false v1
  = second_order_PI zeta om_n A B false v2.
Proof. reflexivity. Qed.

(** ** Controller.tune_controller: what a successful run has computed *)

(** Every intermediate value of a run that returns, in the order the
    method computes them. *)
Lemma tune_controller_inv self_ t r ps :
  tune_controller self_ t = Some (r, ps) →
  let nb := length (v_below_rated_of t) in
  let n := length (TSR_below_rated_of t ++ TSR_above_rated_of t) in
  let len_v := length (v_below_rated_of t ++ v_above_rated_of t) in
  v r = v_below_rated_of t ++ v_above_rated_of t ∧
  v_below_rated r = v_below_rated_of t ∧
  TSR_op r = TSR_below_rated_of t ++ TSR_above_rated_of t ∧
  ∃ Cp0 dCp_beta dCp_TSR dpitch dTSR dtau_dbeta dtau_dlambda dtau_domega
    zpc opc zvs ovs,
    Cp_op_target t = Some Cp0 ∧
    for_range n (linearize_body t (TSR_op r))
      (Cp0, np.empty n, np.empty n, np.empty n)
      = Some (Cp_op r, pitch_op r, dCp_beta, dCp_TSR) ∧
    np.diff (pitch_initial_rad t) !! 0%nat = Some dpitch ∧
    np.diff (TSR_initial t) !! 0%nat = Some dTSR ∧
    dtau_dbeta_of t (v r) (TSR_op r) ((λ x, x / dpitch) <$> dCp_beta)
      = Some dtau_dbeta ∧
    dtau_dlambda_of t (v r) (TSR_op r) ((λ x, x / dTSR) <$> dCp_TSR)
      (Cp_op r) = Some dtau_dlambda ∧
    np.mul dtau_dlambda (dlambda_domega_of t (v r)) = Some dtau_domega ∧
    A r = (λ x, x / J t) <$> dtau_domega ∧
    B_tau r = (λ x, - Ng t ^ 2 / J t * x) <$> np.ones nb ∧
    B_beta r = np.slice nb len_v ((λ x, x / J t) <$> dtau_dbeta) ∧
    pitch_op_pc r = np.slice nb len_v (pitch_op r) ∧
    as_num (zeta_pc self_) = Some zpc ∧
    as_num (omega_pc self_) = Some opc ∧
    as_num (zeta_vs self_) = Some zvs ∧
    as_num (omega_vs self_) = Some ovs ∧
    second_order_PI zpc opc (np.slice nb len_v (A r)) (B_beta r) true
      (Some (v_above_rated_of t)) = Some (pc_gain_schedule r) ∧
    second_order_PI zvs ovs (np.slice 0 nb (A r)) (B_tau r) false
      (Some (v_below_rated_of t)) = Some (vs_gain_schedule r) ∧
    peak_shaving self_ r t = Some ps.
Proof.
  unfold tune_controller. cbv zeta. intros H.
  repeat match type of H with
         | mbind _ _ = Some _ =>
             let x := fresh "x" in
             let Hx := fresh "Hx" in
             apply bind_Some in H as (x & Hx & H)
         | (let '(_, _) := ?p in _) = Some _ => destruct p
         end.
  injection H as <- <-. simpl.
  unfold np.concatenate in *.
  repeat (split; [reflexivity|]).
  eexists _, _, _, _, _, _, _, _, _, _, _, _.
  repeat (split; [eassumption || reflexivity|]).
  eassumption.
Qed.

(** ** The wind-speed grid *)

Lemma arange_length a b s :
  length (np.arange a b s) = Z.to_nat (Qceiling ((b - a) / s)).
Proof. unfold np.arange. by rewrite length_fmap, length_seq. Qed.

Lemma arange_lookup a b s i x :
  np.arange a b s !! i = Some x →
  x = a + inject_Z (Z.of_nat i) * s ∧
  (i < Z.to_nat (Qceiling ((b - a) / s)))%nat.
Proof.
  unfold np.arange. rewrite list_lookup_fmap. intros H.
  apply fmap_Some in H as (k & Hk & ->).
  apply lookup_seq in Hk as [-> ?]. done.
Qed.

(** Every sample of [arange(a, b, s)] lies in the half-open interval
    [[a, b)] when the step is positive. *)
Lemma arange_bounds a b s i x :
  0 < s → np.arange a b s !! i = Some x → a <= x ∧ x < b.
Proof.
  intros Hs [-> Hi]%arange_lookup.
  assert (H0 : 0 <= inject_Z (Z.of_nat i)).
  { change 0 with (inject_Z 0). rewrite <- Zle_Qle. lia. }
  assert (H1 : inject_Z (Z.of_nat i) < (b - a) / s).
  { eapply Qle_lt_trans; [|apply Qceiling_lt].
    rewrite <- Zle_Qle. lia. }
  split.
  - pose proof (Qmult_le_0_compat _ _ H0 (Qlt_le_weak _ _ Hs)). lra.
  - apply (Qmult_lt_compat_r _ _ s Hs) in H1.
    assert (Hd : (b - a) / s * s == b - a) by (field; lra).
    rewrite Hd in H1. lra.
Qed.

Lemma arange_increasing a b s i j x y :
  0 < s → (i < j)%nat →
  np.arange a b s !! i = Some x → np.arange a b s !! j = Some y → x < y.
Proof.
  intros Hs Hij [-> _]%arange_lookup [-> _]%arange_lookup.
  assert (H : inject_Z (Z.of_nat i) < inject_Z (Z.of_nat j)).
  { rewrite <- Zlt_Qlt. lia. }
  apply (Qmult_lt_compat_r _ _ s Hs) in H. lra.
Qed.


(** The tuning of the concrete turbine returns; the sizes of what it
    stores, its last wind speed and its first minimum pitch.  Only the
    comparisons the run makes are evaluated. *)
Lemma example_tune_summary :
  (λ x : Tuned * ControllerBlocks,
     (length (v x.1), length (v_below_rated x.1),
      length (Kp (vs_gain_schedule x.1)),
      length (Kp (pc_gain_schedule x.1)),
      Qred <$> last (v x.1),
      Qred <$> pitch_min x.2 !! 0%nat))
    <$> tune_controller example_controller example_turbine
  = Some (44%nat, 17%nat, 17%nat, 27%nat, Some (249 # 10), Some (-1 # 10)).
Proof. lazy. reflexivity. Qed.

Lemma example_tune_returns :
  ∃ r ps, tune_controller example_controller example_turbine = Some (r, ps).
Proof.
  pose proof example_tune_summary as H.
  destruct (tune_controller example_controller example_turbine)
    as [[r ps]|]; [eauto | discriminate].
Qed.



(** ** Tip-speed-ratio targets *)

Lemma TSR_below_rated_length t :
  length (TSR_below_rated_of t) = length (v_below_rated_of t).
Proof.
  unfold TSR_below_rated_of, np.ones.
  by rewrite length_fmap, length_replicate.
Qed.

Lemma TSR_above_rated_length t :
  length (TSR_above_rated_of t) = length (v_above_rated_of t).
Proof. unfold TSR_above_rated_of. by rewrite length_fmap. Qed.

Lemma TSR_below_rated_lookup t i x :
  TSR_below_rated_of t !! i = Some x → x == TSR_opt (Cp t).
Proof.
  unfold TSR_below_rated_of, np.ones. rewrite list_lookup_fmap.
  intros H. apply fmap_Some in H as (y & Hy & ->).
  apply lookup_replicate in Hy as [-> _]. ring.
Qed.

(** The quotient [c / v] falls strictly as [v] grows over the positive
    wind speeds, for a positive [c]. *)
Lemma quotient_decreasing c x y : 0 < c → 0 < x → x < y → c / y < c / x.
Proof.
  intros Hc Hx Hxy.
  assert (Hd : c / x - c / y == c * (y - x) / (x * y)) by (field; lra).
  assert (Hp : 0 < c * (y - x) / (x * y)).
  { apply Qlt_shift_div_l; [nra|]. nra. }
  lra.
Qed.

(** C7.  After a run that returns, on a turbine whose rated tip speed
    [rated_rotor_speed * R] is positive and whose rated wind speed is not
    negative: every below-rated tip-speed-ratio target equals the optimal
    tip-speed ratio of the power-coefficient surface; every above-rated
    target is [rated_rotor_speed * R / v] at its wind speed; and along the
    above-rated points the wind speed strictly grows and the target
    strictly falls. *)
Theorem tune_controller_TSR_targets self_ t r ps :
  tune_controller self_ t = Some (r, ps) →
  0 < rated_rotor_speed t * rotor_radius t →
  0 <= v_rated t →
  let nb := length (v_below_rated r) in
  (∀ i, (i < nb)%nat →
     ∃ x, TSR_op r !! i = Some x ∧ x == TSR_opt (Cp t)) ∧
  (∀ i v_i, (nb ≤ i)%nat → v r !! i = Some v_i →
     ∃ x, TSR_op r !! i = Some x ∧
          x == rated_rotor_speed t * rotor_radius t / v_i) ∧
  (∀ i j v_i v_j, (nb ≤ i)%nat → (i < j)%nat →
     v r !! i = Some v_i → v r !! j = Some v_j →
     v_i < v_j ∧
     ∃ x_i x_j, TSR_op r !! i = Some x_i ∧ TSR_op r !! j = Some x_j ∧
                x_j < x_i).
Proof.
  intros H Hc Hv nb.
  destruct (tune_controller_inv _ _ _ _ H) as (Hvr & Hb & HT & _).
  subst nb. rewrite Hvr, Hb, HT.
  assert (Habove : ∀ i v_i, (length (v_below_rated_of t) ≤ i)%nat →
            (v_below_rated_of t ++ v_above_rated_of t) !! i = Some v_i →
            v_above_rated_of t !! (i - length (v_below_rated_of t))%nat
              = Some v_i ∧ 0 < v_i ∧
            (TSR_below_rated_of t ++ TSR_above_rated_of t) !! i
              = Some (rated_rotor_speed t * rotor_radius t / v_i)).
  { intros i v_i Hi Hl. rewrite lookup_app_r in Hl by done.
    split; [done|]. split.
    - apply arange_bounds in Hl as [? _]; [lra | reflexivity].
    - rewrite lookup_app_r; rewrite TSR_below_rated_length; [|done].
      unfold TSR_above_rated_of. by rewrite list_lookup_fmap, Hl. }
  split; [|split].
  - intros i Hi.
    destruct (lookup_lt_is_Some_2 (TSR_below_rated_of t) i) as [x Hx].
    { by rewrite TSR_below_rated_length. }
    exists x. split; [by apply lookup_app_l_Some|].
    by apply TSR_below_rated_lookup in Hx.
  - intros i v_i Hi Hl.
    destruct (Habove i v_i Hi Hl) as (_ & _ & HTi).
    eexists. split; [exact HTi | reflexivity].
  - intros i j v_i v_j Hi Hij Hl_i Hl_j.
    destruct (Habove i v_i Hi Hl_i) as (Hai & Hpos & HTi).
    destruct (Habove j v_j ltac:(lia) Hl_j) as (Haj & _ & HTj).
    assert (Hlt : v_i < v_j).
    { eapply (arange_increasing _ _ _ _ _ _ _ _ _ Hai Haj). }
    Unshelve. all: try reflexivity; try lia.
    split; [done|]. eexists _, _. split; [done|]. split; [done|].
    by apply quotient_decreasing.
Qed.

Lemma tune_controller_TSR_targets_witness :
  ∃ r ps,
    tune_controller example_controller example_turbine = Some (r, ps) ∧
    ∀ i, (i < length (v_below_rated r))%nat →
      ∃ x, TSR_op r !! i = Some x ∧ x == 7.5.
Proof.
  destruct example_tune_returns as (r & ps & H).
  exists r, ps. split; [exact H|].
  assert (Hc : 0 < rated_rotor_speed example_turbine
                   * rotor_radius example_turbine) by reflexivity.
  assert (Hv : 0 <= v_rated example_turbine) by discriminate.
  exact (proj1 (tune_controller_TSR_targets _ _ _ _ H Hc Hv)).
Defined.

(** ** Extrema and saturation *)

Lemma foldl_Qmax_bounds l x :
  x <= foldl Qmax x l ∧ ∀ y, y ∈ l → y <= foldl Qmax x l.
Proof.
  revert x. induction l as [|a l IH]; intros x; simpl.
  - split; [apply Qle_refl|]. intros y Hy. by apply elem_of_nil in Hy.
  - destruct (IH (Qmax x a)) as [H1 H2]. split.
    + eapply Qle_trans; [apply Q.le_max_l | exact H1].
    + intros y [->|Hy]%elem_of_cons; [|by apply H2].
      eapply Qle_trans; [apply Q.le_max_r | exact H1].
Qed.

Lemma foldl_Qmin_bounds l x :
  foldl Qmin x l <= x ∧ ∀ y, y ∈ l → foldl Qmin x l <= y.
Proof.
  revert x. induction l as [|a l IH]; intros x; simpl.
  - split; [apply Qle_refl|]. intros y Hy. by apply elem_of_nil in Hy.
  - destruct (IH (Qmin x a)) as [H1 H2]. split.
    + eapply Qle_trans; [exact H1 | apply Q.le_min_l].
    + intros y [->|Hy]%elem_of_cons; [|by apply H2].
      eapply Qle_trans; [exact H1 | apply Q.le_min_r].
Qed.

Lemma np_max_ge l m y : np.max l = Some m → y ∈ l → y <= m.
Proof.
  destruct l as [|x l]; [done|]. intros [= <-].
  destruct (foldl_Qmax_bounds l x) as [H1 H2].
  intros [->|Hy]%elem_of_cons; [done | by apply H2].
Qed.

Lemma np_min_le l m y : np.min l = Some m → y ∈ l → m <= y.
Proof.
  destruct l as [|x l]; [done|]. intros [= <-].
  destruct (foldl_Qmin_bounds l x) as [H1 H2].
  intros [->|Hy]%elem_of_cons; [done | by apply H2].
Qed.



(** ** The loop over the operating points *)

(** What the loop of [tune_controller] has established after [k]
    iterations, started from the targets [Cp0]: the four arrays keep
    their lengths, the targets from [k] on are still untouched, and every
    earlier target has been saturated on its surface slice and inverted
    to a pitch. *)
Definition linearize_inv (t : Turbine) (TSR_op Cp0 : list Q) (k : nat)
    (s : list Q * list Q * list Q * list Q) : Prop :=
  let '(Cp_op, pitch_op, dCp_beta, dCp_TSR) := s in
  length Cp_op = length Cp0 ∧
  length pitch_op = length TSR_op ∧
  length dCp_beta = length TSR_op ∧
  length dCp_TSR = length TSR_op ∧
  (∀ i, (k ≤ i)%nat → Cp_op !! i = Cp0 !! i) ∧
  (∀ i tsr, (i < k)%nat → TSR_op !! i = Some tsr →
     let Cp_TSR :=
       interp_surface_slice (Cp t) (pitch_initial_rad t) tsr in
     ∃ target lo hi f p,
       Cp0 !! i = Some target ∧
       np.min Cp_TSR = Some lo ∧ np.max Cp_TSR = Some hi ∧
       Cp_op !! i = Some (np.clip target lo hi) ∧
       interpolate.interp1d Cp_TSR (pitch_initial_rad t) true None
         = Some f ∧
       interpolate.call f (np.clip target lo hi) = Some p ∧
       pitch_op !! i = Some p ∧
       dCp_beta !! i = Some (interp_gradient (Cp t) p tsr).1 ∧
       dCp_TSR !! i = Some (interp_gradient (Cp t) p tsr).2).

Lemma linearize_body_inv t TSR_op Cp0 k s s' :
  linearize_inv t TSR_op Cp0 k s →
  linearize_body t TSR_op k s = Some s' →
  linearize_inv t TSR_op Cp0 (S k) s'.
Proof.
  destruct s as [[[Cp_op pitch_op] dCp_beta] dCp_TSR].
  intros (L1 & L2 & L3 & L4 & Hrest & Hdone) H.
  unfold linearize_body in H.
  repeat match type of H with
         | mbind _ _ = Some _ =>
             let x := fresh "x" in
             let Hx := fresh "Hx" in
             apply bind_Some in H as (x & Hx & H)
         end.
  injection H as <-.
  rename x into tsr, x0 into Cp_i, x1 into lo, x2 into hi, x3 into Cp_op',
    x4 into f, x5 into Cp_i', x6 into p, x7 into pitch_op',
    x8 into pitch_i, x9 into dCp_beta', x10 into dCp_TSR'.
  rewrite (store_lookup_eq _ _ _ _ Hx3) in Hx5. injection Hx5 as <-.
  rewrite (store_lookup_eq _ _ _ _ Hx7) in Hx8. injection Hx8 as <-.
  rewrite Hrest in Hx0 by done.
  unfold linearize_inv. split; [|split; [|split; [|split; [|split]]]].
  - by rewrite (store_length _ _ _ _ Hx3).
  - by rewrite (store_length _ _ _ _ Hx7).
  - by rewrite (store_length _ _ _ _ Hx9).
  - by rewrite (store_length _ _ _ _ Hx10).
  - intros i Hi. rewrite (store_lookup_ne _ _ _ _ _ Hx3) by lia.
    apply Hrest. lia.
  - intros i tsr' Hi Htsr'. destruct (decide (i = k)) as [->|Hne].
    + rewrite Hx in Htsr'. injection Htsr' as <-.
      exists Cp_i, lo, hi, f, p.
      rewrite (store_lookup_eq _ _ _ _ Hx3), (store_lookup_eq _ _ _ _ Hx7),
        (store_lookup_eq _ _ _ _ Hx9), (store_lookup_eq _ _ _ _ Hx10).
      done.
    + destruct (Hdone i tsr' ltac:(lia) Htsr')
        as (target & lo' & hi' & f' & p' & ? & ? & ? & ? & ? & ? & ? & ? & ?).
      exists target, lo', hi', f', p'.
      rewrite (store_lookup_ne _ _ _ _ _ Hx3), (store_lookup_ne _ _ _ _ _ Hx7),
        (store_lookup_ne _ _ _ _ _ Hx9), (store_lookup_ne _ _ _ _ _ Hx10)
        by lia.
      done.
Qed.

Lemma linearize_loop_inv t TSR_op Cp0 s' :
  length Cp0 = length TSR_op →
  for_range (length TSR_op) (linearize_body t TSR_op)
    (Cp0, np.empty (length TSR_op), np.empty (length TSR_op),
     np.empty (length TSR_op)) = Some s' →
  linearize_inv t TSR_op Cp0 (length TSR_op) s'.
Proof.
  intros Hl. apply (for_range_ind (linearize_inv t TSR_op Cp0)).
  - unfold linearize_inv, np.empty. rewrite !length_replicate.
    repeat split; try done. intros i tsr Hi. lia.
  - intros i x y _. apply linearize_body_inv.
Qed.

Lemma Cp_op_target_length t Cp0 :
  Cp_op_target t = Some Cp0 →
  length Cp0 = length (TSR_below_rated_of t ++ TSR_above_rated_of t).
Proof.
  unfold Cp_op_target. intros H.
  apply bind_Some in H as (tsr0 & _ & [= <-]).
  unfold np.concatenate, np.ones.
  rewrite !length_app, !length_fmap, length_replicate.
  by rewrite TSR_below_rated_length.
Qed.

(** The state of the loop when a run returns. *)
Lemma tune_controller_loop self_ t r ps :
  tune_controller self_ t = Some (r, ps) →
  ∃ Cp0 dCp_beta dCp_TSR,
    Cp_op_target t = Some Cp0 ∧
    linearize_inv t (TSR_op r) Cp0 (length (TSR_op r))
      (Cp_op r, pitch_op r, dCp_beta, dCp_TSR).
Proof.
  intros H.
  destruct (tune_controller_inv _ _ _ _ H)
    as (_ & _ & HT & Cp0 & dCp_beta & dCp_TSR & ? & ? & ? & ? & ? & ? & ?
        & ? & ? & HCp0 & Hloop & _).
  exists Cp0, dCp_beta, dCp_TSR. split; [done|].
  rewrite <- HT in Hloop. apply linearize_loop_inv; [|done].
  rewrite HT. by apply Cp_op_target_length.
Qed.



(** ** Peak shaving *)

(** The thrust-coefficient ceiling of a point: [Tmax] over the thrust per
    unit coefficient at wind speed [v_i]. *)
Definition Ct_ceiling (t : Turbine) (Tmax v_i : Q) : Q :=
  Tmax / (0.5 * rho t * (np.pi * rotor_radius t ^ 2) * v_i ^ 2).

(** What the first loop of [peak_shaving] has established after [k]
    iterations: [Ct_op] keeps its length, and [T], bound from the first
    iteration on, is the thrust of the current [Ct_op]. *)
Definition unshaved_inv (c : Tuned) (t : Turbine) (k : nat)
    (s : list Q * option (list Q)) : Prop :=
  length s.1 = length (TSR_op c) ∧
  match s.2 with
  | None => k = 0%nat
  | Some T => np.mul (thrust_factor t (v c)) s.1 = Some T
  end.

Lemma unshaved_body_inv c t k s s' :
  unshaved_inv c t k s → unshaved_body c t k s = Some s' →
  unshaved_inv c t (S k) s'.
Proof.
  destruct s as [Ct_op T0]. intros [L _] H. unfold unshaved_body in H.
  apply bind_Some in H as (pitch & _ & H).
  apply bind_Some in H as (tsr & _ & H).
  apply bind_Some in H as (Ct_op' & Hst & H).
  apply bind_Some in H as (T' & HT & [= <-]).
  split; simpl; [|done]. by rewrite (store_length _ _ _ _ Hst).
Qed.

(** What the second loop has established after [k] iterations, started
    from the unshaved coefficients [Ct_op1]: a point whose thrust exceeds
    [Tmax] has its coefficient replaced by the ceiling, any other point
    keeps its coefficient and has the ceiling capped by the maximum of its
    slice; in both cases the minimum pitch is the slice inverted at the
    resulting ceiling. *)
Definition shave_inv (c : Tuned) (t : Turbine) (T : list Q) (Tmax : Q)
    (Ct_op1 : list Q) (len_pitch : nat) (k : nat)
    (s : list Q * list Q * list Q) : Prop :=
  let '(Ct_op, Ct_max, pitch_min) := s in
  length Ct_op = length Ct_op1 ∧
  length Ct_max = length (TSR_op c) ∧
  length pitch_min = len_pitch ∧
  (∀ i, (k ≤ i)%nat → Ct_op !! i = Ct_op1 !! i) ∧
  (∀ i tsr, (i < k)%nat → TSR_op c !! i = Some tsr →
     let Ct_tsr :=
       interp_surface_slice (Ct t) (pitch_initial_rad t) tsr in
     ∃ v_i T_i pitch_first pitch_last f cm p,
       v c !! i = Some v_i ∧ T !! i = Some T_i ∧
       (if interpolate.Qltb Tmax T_i
        then cm = Ct_ceiling t Tmax v_i ∧ Ct_op !! i = Some cm
        else (∃ m, np.max Ct_tsr = Some m ∧
                   cm = np.minimum m (Ct_ceiling t Tmax v_i)) ∧
             Ct_op !! i = Ct_op1 !! i) ∧
       Ct_max !! i = Some cm ∧
       head (pitch_initial_rad t) = Some pitch_first ∧
       last (pitch_initial_rad t) = Some pitch_last ∧
       interpolate.interp1d Ct_tsr (pitch_initial_rad t) false
         (Some (pitch_first, pitch_last)) = Some f ∧
       interpolate.call f cm = Some p ∧
       pitch_min !! i = Some p).

Lemma shave_body_inv c t T Tmax Ct_op1 len_pitch k s s' :
  shave_inv c t T Tmax Ct_op1 len_pitch k s →
  shave_body c t T Tmax k s = Some s' →
  shave_inv c t T Tmax Ct_op1 len_pitch (S k) s'.
Proof.
  destruct s as [[Ct_op Ct_max] pitch_min].
  intros (L1 & L2 & L3 & Hrest & Hdone) H.
  unfold shave_body in H. cbv zeta in H.
  apply bind_Some in H as (tsr & Htsr & H).
  apply bind_Some in H as (v_i & Hv & H).
  apply bind_Some in H as (Ct_max1 & Hst1 & H).
  apply bind_Some in H as (T_i & HT & H).
  apply bind_Some in H as ([Ct_op' Ct_max'] & Hbr & H).
  apply bind_Some in H as (pitch_first & Hfirst & H).
  apply bind_Some in H as (pitch_last & Hlast & H).
  apply bind_Some in H as (f & Hf & H).
  apply bind_Some in H as (cm & Hcm & H).
  apply bind_Some in H as (p & Hp & H).
  apply bind_Some in H as (pitch_min' & Hst2 & [= <-]).
  fold (Ct_ceiling t Tmax v_i) in Hst1, Hbr.
  assert (Hbranch :
    length Ct_op' = length Ct_op ∧ length Ct_max' = length Ct_max ∧
    (∀ j, j ≠ k → Ct_op' !! j = Ct_op !! j) ∧
    (∀ j, j ≠ k → Ct_max' !! j = Ct_max !! j) ∧
    if interpolate.Qltb Tmax T_i
    then cm = Ct_ceiling t Tmax v_i ∧ Ct_op' !! k = Some cm
    else (∃ m, np.max (interp_surface_slice (Ct t) (pitch_initial_rad t)
                         tsr) = Some m ∧
               cm = np.minimum m (Ct_ceiling t Tmax v_i)) ∧
         Ct_op' !! k = Ct_op1 !! k).
  { destruct (interpolate.Qltb Tmax T_i).
    - apply bind_Some in Hbr as (Ct_op2 & Hst3 & [= <- <-]).
      rewrite (store_lookup_eq _ _ _ _ Hst1) in Hcm. injection Hcm as <-.
      rewrite (store_length _ _ _ _ Hst3), (store_length _ _ _ _ Hst1).
      repeat split; try done.
      + intros j Hj. by rewrite (store_lookup_ne _ _ _ _ _ Hst3).
      + intros j Hj. by rewrite (store_lookup_ne _ _ _ _ _ Hst1).
      + by rewrite (store_lookup_eq _ _ _ _ Hst3).
    - apply bind_Some in Hbr as (m & Hm & Hbr).
      apply bind_Some in Hbr as (Ct_max2 & Hst3 & [= <- <-]).
      rewrite (store_lookup_eq _ _ _ _ Hst3) in Hcm. injection Hcm as <-.
      rewrite (store_length _ _ _ _ Hst3), (store_length _ _ _ _ Hst1).
      repeat split; try done.
      + intros j Hj. rewrite (store_lookup_ne _ _ _ _ _ Hst3) by done.
        by rewrite (store_lookup_ne _ _ _ _ _ Hst1).
      + by exists m.
      + by apply Hrest. }
  destruct Hbranch as (L1' & L2' & Hop & Hmax & Hk).
  unfold shave_inv. split; [|split; [|split; [|split]]].
  - by rewrite L1'.
  - by rewrite L2'.
  - by rewrite (store_length _ _ _ _ Hst2).
  - intros i Hi. rewrite Hop by lia. apply Hrest. lia.
  - intros i tsr' Hi Htsr'. destruct (decide (i = k)) as [->|Hne].
    + rewrite Htsr in Htsr'. injection Htsr' as <-.
      exists v_i, T_i, pitch_first, pitch_last, f, cm, p.
      split; [done|]. split; [done|]. split; [exact Hk|].
      split.
      { destruct (interpolate.Qltb Tmax T_i).
        - apply bind_Some in Hbr as (Ct_op2 & Hst3 & [= <- <-]). done.
        - apply bind_Some in Hbr as (m & Hm & Hbr).
          apply bind_Some in Hbr as (Ct_max2 & Hst3 & [= <- <-]). done. }
      rewrite (store_lookup_eq _ _ _ _ Hst2). done.
    + destruct (Hdone i tsr' ltac:(lia) Htsr')
        as (v_j & T_j & pf & pl & f' & cm' & p' & ? & ? & Hif & ? & ? & ?
            & ? & ? & ?).
      exists v_j, T_j, pf, pl, f', cm', p'.
      rewrite Hmax, (store_lookup_ne _ _ _ _ _ Hst2), Hop by done.
      done.
Qed.

(** What a call of [peak_shaving] that returns has computed. *)
Lemma peak_shaving_inv self_ c t ps :
  peak_shaving self_ c t = Some ps →
  ∃ Ct_op1 pp T_peak,
    length Ct_op1 = length (TSR_op c) ∧
    np.mul (thrust_factor t (v c)) Ct_op1 = Some (T ps) ∧
    as_num (ps_percent self_) = Some pp ∧
    np.max (T ps) = Some T_peak ∧
    shave_inv c t (T ps) (pp * T_peak) Ct_op1 (length (pitch_op c))
      (length (TSR_op c)) (Ct_op ps, Ct_max ps, pitch_min ps) ∧
    np.mul (thrust_factor t (v c)) (Ct_op ps) = Some (Tshaved ps) ∧
    v_ps ps = v c.
Proof.
  unfold peak_shaving. cbv zeta. intros H.
  apply bind_Some in H as ([Ct_op1 T0] & Hloop1 & H).
  apply bind_Some in H as (T1 & -> & H).
  apply bind_Some in H as (pp & Hpp & H).
  apply bind_Some in H as (T_peak & Hpeak & H).
  apply bind_Some in H as (mp & Hmp & H).
  apply bind_Some in H as ([[Ct_op2 Ct_max2] pitch_min2] & Hloop2 & H).
  apply bind_Some in H as (Tshaved2 & HTs & [= <-]). simpl.
  apply (for_range_ind (unshaved_inv c t)) in Hloop1.
  - destruct Hloop1 as [L HT]. simpl in L, HT.
    exists Ct_op1, pp, T_peak. repeat (split; [done|]).
    split; [|done].
    apply (for_range_ind
             (shave_inv c t T1 (pp * T_peak) Ct_op1 (length (pitch_op c))))
      in Hloop2; [done| |].
    + unfold shave_inv, np.empty, np.ones.
      rewrite length_replicate, length_fmap, length_replicate.
      repeat split; try done. intros i tsr Hi. lia.
    + intros i x y _. apply shave_body_inv.
  - split; [|done]. simpl. unfold np.empty. by rewrite length_replicate.
  - intros i x y _. apply unshaved_body_inv.
Qed.





(** ** Lengths *)

Lemma broadcast_length f a b c n :
  np.broadcast f a b = Some c → length a = n → length b = n →
  length c = n.
Proof.
  intros H Ha Hb.
  apply broadcast_Some_length in H as [_ ?]; congruence.
Qed.

Lemma slice_length lo hi (a : list Q) :
  (hi ≤ length a)%nat → length (np.slice lo hi a) = (hi - lo)%nat.
Proof. intros H. unfold np.slice. rewrite length_take, length_drop. lia. Qed.

Lemma polyval1_length p v : length (polyval1 p v) = length v.
Proof. unfold polyval1. by rewrite length_fmap. Qed.

Lemma polyfit_Some_length x y p :
  np.polyfit x y = Some p → length x = length y.
Proof. unfold np.polyfit. by case_decide. Qed.

(** With linearization the gains are those of the direct formulas on the
    values of the two fitted lines. *)
Lemma second_order_PI_linearized zeta om_n (A B v : list Q) r :
  second_order_PI zeta om_n A B true (Some v) = Some r →
  ∃ pA pB,
    np.polyfit v A = Some pA ∧ np.polyfit v B = Some pB ∧
    second_order_PI zeta om_n (polyval1 pA v) (polyval1 pB v) false None
      = Some r.
Proof.
  unfold second_order_PI at 1. intros H.
  apply bind_Some in H as ([A' B'] & HAB & H).
  apply bind_Some in HAB as (v' & [= <-] & HAB).
  apply bind_Some in HAB as (pA & HpA & HAB).
  apply bind_Some in HAB as (pB & HpB & [= <- <-]).
  exists pA, pB. repeat (split; [done|]). exact H.
Qed.

Lemma second_order_PI_length zeta om_n (A B : list Q) linearize v r :
  second_order_PI zeta om_n A B linearize (Some v) = Some r →
  length A = length B →
  length (Kp r) = length A ∧ length (Ki r) = length A.
Proof.
  intros H Hl. destruct linearize.
  - apply second_order_PI_linearized in H as (pA & pB & HpA & HpB & H).
    apply polyfit_Some_length in HpA.
    rewrite second_order_PI_direct in H
      by (by rewrite !polyval1_length).
    injection H as <-. simpl.
    rewrite length_zip_with, !length_fmap, !polyval1_length. lia.
  - rewrite second_order_PI_direct in H by done.
    injection H as <-. simpl.
    rewrite length_zip_with, !length_fmap. lia.
Qed.

Lemma dtau_dbeta_length t v TSR_op dCp_dbeta x n :
  dtau_dbeta_of t v TSR_op dCp_dbeta = Some x →
  length v = n → length TSR_op = n → length dCp_dbeta = n →
  length x = n.
Proof.
  unfold dtau_dbeta_of, np.mul. intros H Hv HT Hd.
  apply bind_Some in H as (a & Ha & H).
  apply (broadcast_length _ _ _ _ n) in Ha;
    [|by rewrite length_fmap|done].
  apply (broadcast_length _ _ _ _ n) in H; [done|done|].
  by rewrite length_fmap.
Qed.

Lemma dtau_dlambda_length t v TSR_op dCp_dTSR Cp_op x n :
  dtau_dlambda_of t v TSR_op dCp_dTSR Cp_op = Some x →
  length v = n → length TSR_op = n → length dCp_dTSR = n →
  length Cp_op = n → length x = n.
Proof.
  unfold dtau_dlambda_of, np.mul, np.sub. intros H Hv HT Hd HC.
  apply bind_Some in H as (a & Ha & H).
  apply bind_Some in H as (b & Hb & H).
  apply bind_Some in H as (b' & Hb' & H).
  apply (broadcast_length _ _ _ _ n) in Ha;
    [|by rewrite length_fmap|by rewrite length_fmap].
  apply (broadcast_length _ _ _ _ n) in Hb; [|done|done].
  apply (broadcast_length _ _ _ _ n) in Hb'; [|done|done].
  by apply (broadcast_length _ _ _ _ n) in H.
Qed.

(** The shape of what a run that returns has stored, with the torque
    derivatives it went through. *)
Lemma tune_controller_shape self_ t r ps :
  tune_controller self_ t = Some (r, ps) →
  let nb := length (v_below_rated r) in
  let n := length (v r) in
  let na := length (drop nb (v r)) in
  (nb + na = n)%nat ∧ (0 < na)%nat ∧
  length (TSR_op r) = n ∧ length (Cp_op r) = n ∧
  length (pitch_op r) = n ∧ length (A r) = n ∧
  length (Kp (vs_gain_schedule r)) = nb ∧
  length (Ki (vs_gain_schedule r)) = nb ∧
  length (B_tau r) = nb ∧
  length (Kp (pc_gain_schedule r)) = na ∧
  length (Ki (pc_gain_schedule r)) = na ∧
  length (B_beta r) = na ∧ length (pitch_op_pc r) = na ∧
  length (pitch_min ps) = n ∧ length (Ct_op ps) = n ∧
  length (Ct_max ps) = n ∧ length (Tshaved ps) = n ∧ length (T ps) = n ∧
  ∃ dCp_beta dCp_TSR dpitch dTSR dtau_dbeta dtau_dlambda dtau_domega,
    dtau_dbeta_of t (v r) (TSR_op r) ((λ x, x / dpitch) <$> dCp_beta)
      = Some dtau_dbeta ∧
    dtau_dlambda_of t (v r) (TSR_op r) ((λ x, x / dTSR) <$> dCp_TSR)
      (Cp_op r) = Some dtau_dlambda ∧
    np.mul dtau_dlambda (dlambda_domega_of t (v r)) = Some dtau_domega ∧
    length dtau_dbeta = n ∧ length dtau_domega = n ∧
    A r = (λ x, x / J t) <$> dtau_domega ∧
    B_beta r = np.slice nb n ((λ x, x / J t) <$> dtau_dbeta).
Proof.
  intros H nb n na.
  destruct (tune_controller_inv _ _ _ _ H)
    as (Hv & Hb & HT & Cp0' & dCp_beta' & dCp_TSR' & dpitch & dTSR
        & dtau_dbeta & dtau_dlambda & dtau_domega & zpc & opc & zvs & ovs
        & HCp0' & Hloop & _ & _ & Hdb & Hdl & Hdo & HA & HBt & HBb & Hpc
        & _ & _ & _ & _ & Hpcs & Hvss & Hps).
  assert (LT : length (TSR_op r) = n).
  { subst n. rewrite HT, Hv, !length_app.
    by rewrite TSR_below_rated_length, TSR_above_rated_length. }
  assert (Lna : (nb + na = n)%nat).
  { subst nb na n. rewrite length_drop.
    rewrite Hv, Hb, length_app. lia. }
  assert (Hpos : (0 < na)%nat).
  { pose proof HCp0' as HCp0. unfold Cp_op_target in HCp0.
    apply bind_Some in HCp0 as (tsr0 & Htsr0 & _).
    apply lookup_lt_Some in Htsr0.
    rewrite TSR_above_rated_length in Htsr0.
    subst na nb. rewrite length_drop, Hv, Hb, length_app. lia. }
  assert (Hlen : length (v_below_rated_of t ++ v_above_rated_of t) = n)
    by (subst n; by rewrite Hv).
  assert (Hnb : length (v_below_rated_of t) = nb)
    by (subst nb; by rewrite Hb).
  rewrite Hlen, Hnb in *.
  rewrite <- HT in Hloop. apply linearize_loop_inv in Hloop.
  2:{ rewrite HT. by apply Cp_op_target_length. }
  destruct Hloop as (LC & Lp & Lb & LTs & _).
  rewrite (Cp_op_target_length _ _ HCp0'), <- HT, LT in LC.
  rewrite LT in Lp, Lb, LTs.
  pose proof Hdb as Hdb'. pose proof Hdl as Hdl'. pose proof Hdo as Hdo'.
  apply (dtau_dbeta_length _ _ _ _ _ n) in Hdb;
    [|done|done|by rewrite length_fmap].
  apply (dtau_dlambda_length _ _ _ _ _ _ n) in Hdl;
    [|done|done|by rewrite length_fmap|done].
  apply (broadcast_length _ _ _ _ n) in Hdo;
    [|done|unfold dlambda_domega_of; by rewrite length_fmap].
  assert (LA : length (A r) = n) by (by rewrite HA, length_fmap).
  assert (LBt : length (B_tau r) = nb).
  { rewrite HBt. unfold np.ones. by rewrite length_fmap, length_replicate. }
  assert (LBb : length (B_beta r) = na).
  { rewrite HBb, slice_length by (rewrite length_fmap; lia). lia. }
  assert (LAvs : length (np.slice 0 nb (A r)) = nb).
  { rewrite slice_length by lia. lia. }
  assert (LApc : length (np.slice nb n (A r)) = na).
  { rewrite slice_length by lia. lia. }
  apply second_order_PI_length in Hpcs as [? ?]; [|congruence].
  apply second_order_PI_length in Hvss as [? ?]; [|congruence].
  destruct (peak_shaving_inv _ _ _ _ Hps)
    as (Ct_op1 & pp & T_peak & L1 & HTT & _ & _ & Hsh & HTs & _).
  destruct Hsh as (S1 & S2 & S3 & _).
  assert (Lf : length (thrust_factor t (v r)) = n).
  { unfold thrust_factor. by rewrite length_fmap. }
  apply (broadcast_length _ _ _ _ n) in HTT; [|done|congruence].
  apply (broadcast_length _ _ _ _ n) in HTs; [|done|congruence].
  repeat (split; [congruence || (rewrite Hpc, slice_length by lia; lia)|]).
  exists dCp_beta', dCp_TSR', dpitch, dTSR, dtau_dbeta, dtau_dlambda,
    dtau_domega.
  done.
Qed.

(** C6 (as amended).  After a run that returns, with [nb] below-rated and
    [na] above-rated wind speeds and [n] operating points: [nb + na = n]
    and there is at least one above-rated point; the tip-speed-ratio
    targets, the power-coefficient targets, the pitch angles, the plant
    poles and the peak-shaving outputs ([pitch_min], [Ct_op], [Ct_max],
    [Tshaved], [T]) have length [n]; the torque-loop gain schedule and its
    input gain [B_tau] have length [nb]; the pitch-loop gain schedule, its
    input gain [B_beta] and its pitch table have length [na]. *)
Theorem tune_controller_lengths self_ t r ps :
  tune_controller self_ t = Some (r, ps) →
  let nb := length (v_below_rated r) in
  let n := length (v r) in
  let na := length (drop nb (v r)) in
  (nb + na = n)%nat ∧ (0 < na)%nat ∧
  length (TSR_op r) = n ∧ length (Cp_op r) = n ∧
  length (pitch_op r) = n ∧ length (A r) = n ∧
  length (Kp (vs_gain_schedule r)) = nb ∧
  length (Ki (vs_gain_schedule r)) = nb ∧
  length (B_tau r) = nb ∧
  length (Kp (pc_gain_schedule r)) = na ∧
  length (Ki (pc_gain_schedule r)) = na ∧
  length (B_beta r) = na ∧ length (pitch_op_pc r) = na ∧
  length (pitch_min ps) = n ∧ length (Ct_op ps) = n ∧
  length (Ct_max ps) = n ∧ length (Tshaved ps) = n ∧ length (T ps) = n.
Proof.
  intros H nb n na.
  pose proof (tune_controller_shape _ _ _ _ H) as G. cbv zeta in G.
  repeat (destruct G as [? G]; split; [assumption|]).
  destruct G as [? _]. assumption.
Qed.

Lemma tune_controller_lengths_witness :
  ∃ r ps,
    tune_controller example_controller example_turbine = Some (r, ps) ∧
    length (TSR_op r) = length (v r) ∧
    length (pitch_min ps) = length (v r) ∧
    length (Kp (vs_gain_schedule r)) = length (v_below_rated r).
Proof.
  destruct example_tune_returns as (r & ps & H).
  exists r, ps. split; [exact H|].
  pose proof (tune_controller_lengths _ _ _ _ H) as G. cbv zeta in G.
  destruct G as (_ & _ & G1 & _ & _ & _ & G2 & _ & _ & _ & _ & _ & _ & G3
                 & _).
  split; [exact G1|]. split; [exact G3 | exact G2].
Defined.

(** C6, the claim as stated fails for the gain schedules: on the concrete
    turbine there are 44 operating points, while the torque-loop schedule
    has 17 entries and the pitch-loop schedule 27. *)
Lemma gain_schedule_length_counterexample :
  ∃ r ps,
    tune_controller example_controller example_turbine = Some (r, ps) ∧
    length (v r) = 44%nat ∧
    length (Kp (vs_gain_schedule r)) = 17%nat ∧
    length (Kp (pc_gain_schedule r)) = 27%nat.
Proof.
  pose proof example_tune_summary as Hsum.
  destruct (tune_controller example_controller example_turbine)
    as [[r ps]|]; [|discriminate].
  injection Hsum as H1 _ H2 H3 _ _. exists r, ps.
  split; [reflexivity|]. split; [exact H1|]. split; [exact H2 | exact H3].
Qed.

(** ** The region split *)

Lemma slice_from (lo : nat) (a : list Q) :
  np.slice lo (length a) a = drop lo a.
Proof.
  unfold np.slice. apply take_ge. rewrite length_drop. lia.
Qed.

Lemma slice_upto (hi : nat) (a : list Q) : np.slice 0 hi a = take hi a.
Proof. unfold np.slice. by rewrite Nat.sub_0_r, drop_0. Qed.

(** C9.  After a run that returns, with [nb] below-rated points: the
    plant pole is the torque derivative with respect to rotor speed over
    [J] at every operating point; the torque-input gain is [-Ng^2/J] at
    each of the [nb] below-rated points; the pitch-input gain is the
    torque derivative with respect to pitch over [J], cut to the
    above-rated points.  The pitch-loop schedule is [second_order_PI] with
    linearization on the above-rated poles, the pitch-input gain and the
    above-rated wind speeds; the torque-loop schedule is [second_order_PI]
    without linearization on the below-rated poles and the torque-input
    gain. *)
Theorem tune_controller_region_split self_ t r ps :
  tune_controller self_ t = Some (r, ps) →
  let nb := length (v_below_rated r) in
  ∃ dCp_dbeta dCp_dTSR dtau_dbeta dtau_dlambda dtau_domega
    zpc opc zvs ovs,
    dtau_dbeta_of t (v r) (TSR_op r) dCp_dbeta = Some dtau_dbeta ∧
    dtau_dlambda_of t (v r) (TSR_op r) dCp_dTSR (Cp_op r)
      = Some dtau_dlambda ∧
    np.mul dtau_dlambda (dlambda_domega_of t (v r)) = Some dtau_domega ∧
    A r = (λ x, x / J t) <$> dtau_domega ∧
    length (B_tau r) = nb ∧
    (∀ i b, B_tau r !! i = Some b → b == - Ng t ^ 2 / J t) ∧
    B_beta r = drop nb ((λ x, x / J t) <$> dtau_dbeta) ∧
    as_num (zeta_pc self_) = Some zpc ∧
    as_num (omega_pc self_) = Some opc ∧
    as_num (zeta_vs self_) = Some zvs ∧
    as_num (omega_vs self_) = Some ovs ∧
    second_order_PI zpc opc (drop nb (A r)) (B_beta r) true
      (Some (drop nb (v r))) = Some (pc_gain_schedule r) ∧
    second_order_PI zvs ovs (take nb (A r)) (B_tau r) false
      (Some (v_below_rated r)) = Some (vs_gain_schedule r).
Proof.
  intros H nb.
  pose proof (tune_controller_shape _ _ _ _ H) as G. cbv zeta in G.
  destruct G as (Hn & _ & _ & _ & _ & LA & _ & _ & LBt & _ & _ & _ & _ & _
                 & _ & _ & _ & _ & dCp_beta & dCp_TSR & dpitch & dTSR
                 & dtau_dbeta & dtau_dlambda & dtau_domega & Hdb & Hdl
                 & Hdo & Ldb & Ldo & HA & HBb).
  destruct (tune_controller_inv _ _ _ _ H)
    as (Hv & Hb & _ & _ & _ & _ & _ & _ & _ & _ & _ & zpc & opc & zvs & ovs
        & _ & _ & _ & _ & _ & _ & _ & _ & HBt & _ & _ & Hzpc & Hopc & Hzvs
        & Hovs & Hpcs & Hvss & _).
  fold nb in Hn, LBt, HBb.
  assert (Hnb : length (v_below_rated_of t) = nb) by (subst nb; by rewrite Hb).
  assert (Hlen : length (v_below_rated_of t ++ v_above_rated_of t)
                 = length (v r)) by (by rewrite Hv).
  rewrite Hnb, Hlen in *. rewrite <- Hb in Hvss.
  assert (Hva : v_above_rated_of t = drop nb (v r)).
  { rewrite Hv, <- Hnb. by rewrite drop_app_length. }
  rewrite Hva in Hpcs.
  rewrite <- LA, slice_from in Hpcs. rewrite slice_upto in Hvss.
  exists ((λ x, x / dpitch) <$> dCp_beta), ((λ x, x / dTSR) <$> dCp_TSR),
    dtau_dbeta, dtau_dlambda, dtau_domega, zpc, opc, zvs, ovs.
  repeat (split; [done|]).
  split.
  { intros i b Hi. rewrite HBt in Hi. unfold np.ones in Hi.
    rewrite list_lookup_fmap in Hi.
    apply fmap_Some in Hi as (y & Hy & ->).
    apply lookup_replicate in Hy as [-> _]. ring. }
  split.
  { rewrite HBb. rewrite <- Ldb.
    rewrite <- (length_fmap (λ x, x / J t) dtau_dbeta).
    apply slice_from. }
  done.
Qed.

Lemma tune_controller_region_split_witness :
  ∃ r ps,
    tune_controller example_controller example_turbine = Some (r, ps) ∧
    length (B_tau r) = length (v_below_rated r) ∧
    ∀ i b, B_tau r !! i = Some b → b == - 97 ^ 2 / 40000000.
Proof.
  destruct example_tune_returns as (r & ps & H).
  exists r, ps. split; [exact H|].
  pose proof (tune_controller_region_split _ _ _ _ H) as G. cbv zeta in G.
  destruct G as (? & ? & ? & ? & ? & ? & ? & ? & ? & _ & _ & _ & _ & G1
                 & G2 & _).
  split; [exact G1 | exact G2].
Defined.

(** ** Least squares *)

(** The sum of the squared residuals of the line [a*x + b] on the
    samples. *)
Definition sse (x y : list Q) (a b : Q) : Q :=
  np.sum (zip_with (λ x_i y_i, (y_i - (a * x_i + b)) ^ 2) x y).

(** [p] is a least-squares line of [y] against [x]: no line has a
    smaller sum of squared residuals. *)
Definition least_squares_line (x y : list Q) (p : Q * Q) : Prop :=
  ∀ a b, sse x y p.1 p.2 <= sse x y a b.

Definition count (x : list Q) : Q := inject_Z (Z.of_nat (length x)).

Definition mean (x : list Q) : Q := np.sum x / count x.

(** The spread of the abscissae about their mean. *)
Definition spread (x : list Q) : Q :=
  np.sum ((λ x_i, (x_i - mean x) ^ 2) <$> x).



Lemma count_cons a (x : list Q) : count (a :: x) == count x + 1.
Proof.
  unfold count. simpl length. rewrite Nat2Z.inj_succ.
  unfold Z.succ. rewrite inject_Z_plus. reflexivity.
Qed.

Lemma count_pos (x : list Q) : x ≠ [] → 0 < count x.
Proof.
  destruct x as [|a x]; [done|]. intros _. unfold count.
  change 0 with (inject_Z 0). rewrite <- Zlt_Qlt. simpl length. lia.
Qed.

Lemma sum_cons a (x : list Q) : np.sum (a :: x) = a + np.sum x.
Proof. reflexivity. Qed.

Lemma sum_squares_nonneg (f : Q → Q) (x : list Q) :
  0 <= np.sum ((λ x_i, f x_i ^ 2) <$> x).
Proof.
  induction x as [|a x IH]; [discriminate|].
  rewrite fmap_cons, sum_cons.
  assert (0 <= f a ^ 2) by nra. lra.
Qed.

Lemma sum_squares_zero (f : Q → Q) (x : list Q) :
  np.sum ((λ x_i, f x_i ^ 2) <$> x) == 0 → ∀ a, a ∈ x → f a == 0.
Proof.
  induction x as [|b x IH]; intros Hs a Ha; [by apply elem_of_nil in Ha|].
  rewrite fmap_cons, sum_cons in Hs.
  pose proof (sum_squares_nonneg f x) as Hx.
  assert (Hb : 0 <= f b ^ 2) by nra.
  apply elem_of_cons in Ha as [->|Ha].
  - assert (Hz : f b ^ 2 == 0) by lra. nra.
  - apply IH; [lra | done].
Qed.

(** The sums that a straight-line fit reads, expanded. *)
Lemma sse_expand (x y : list Q) a b :
  length x = length y →
  sse x y a b ==
    np.sum (zip_with Qmult y y) - 2 * a * np.sum (zip_with Qmult x y)
    - 2 * b * np.sum y + a ^ 2 * np.sum (zip_with Qmult x x)
    + 2 * a * b * np.sum x + count x * b ^ 2.
Proof.
  unfold sse. revert y. induction x as [|x0 x IH]; intros [|y0 y] Hl;
    try discriminate.
  - unfold count. simpl. ring.
  - injection Hl as Hl. specialize (IH y Hl).
    cbn [zip_with]. rewrite !sum_cons, count_cons, IH. ring.
Qed.

Lemma line_squares_expand (x : list Q) a b :
  np.sum ((λ x_i, (a * x_i + b) ^ 2) <$> x) ==
    a ^ 2 * np.sum (zip_with Qmult x x) + 2 * a * b * np.sum x
    + count x * b ^ 2.
Proof.
  induction x as [|x0 x IH].
  - unfold count. simpl. ring.
  - rewrite fmap_cons. cbn [zip_with].
    rewrite !sum_cons, count_cons, IH. ring.
Qed.


Lemma centered_squares_expand (x : list Q) c :
  np.sum ((λ x_i, (x_i - c) ^ 2) <$> x) ==
    np.sum (zip_with Qmult x x) - 2 * c * np.sum x + count x * c ^ 2.
Proof.
  induction x as [|x0 x IH].
  - unfold count. simpl. ring.
  - rewrite fmap_cons. cbn [zip_with].
    rewrite !sum_cons, count_cons, IH. ring.
Qed.

(** A line that solves the normal equations is a least-squares line. *)
Lemma normal_equations_optimal (x y : list Q) p0 p1 :
  length x = length y →
  np.sum (zip_with Qmult x y)
    == p0 * np.sum (zip_with Qmult x x) + p1 * np.sum x →
  np.sum y == p0 * np.sum x + count x * p1 →
  least_squares_line x y (p0, p1).
Proof.
  intros Hl N1 N2 a b. simpl.
  rewrite !sse_expand by done.
  pose proof (sum_squares_nonneg (λ x_i, (a - p0) * x_i + (b - p1)) x) as Hq.
  rewrite line_squares_expand in Hq.
  set (Sxx := np.sum (zip_with Qmult x x)) in *.
  set (Sxy := np.sum (zip_with Qmult x y)) in *.
  set (Syy := np.sum (zip_with Qmult y y)) in *.
  set (Sx := np.sum x) in *. set (Sy := np.sum y) in *.
  set (n := count x) in *.
  assert (Hd :
    (Syy - 2 * a * Sxy - 2 * b * Sy + a ^ 2 * Sxx + 2 * a * b * Sx
     + n * b ^ 2)
    - (Syy - 2 * p0 * Sxy - 2 * p1 * Sy + p0 ^ 2 * Sxx + 2 * p0 * p1 * Sx
       + n * p1 ^ 2)
    == (a - p0) ^ 2 * Sxx + 2 * (a - p0) * (b - p1) * Sx
       + n * (b - p1) ^ 2).
  { rewrite N1, N2. ring. }
  lra.
Qed.

Lemma sum_constant_products (x y : list Q) m :
  length x = length y → (∀ a, a ∈ x → a == m) →
  np.sum (zip_with Qmult x y) == m * np.sum y.
Proof.
  revert y. induction x as [|x0 x IH]; intros [|y0 y] Hl Hm;
    try discriminate.
  - simpl. ring.
  - injection Hl as Hl. cbn [zip_with]. rewrite !sum_cons.
    rewrite IH by (try done; intros a Ha; apply Hm, elem_of_cons; by right).
    rewrite (Hm x0) by (apply elem_of_cons; by left). ring.
Qed.

(** Abscissae whose normal equations are singular are all equal to
    their mean. *)
Lemma singular_abscissae (x : list Q) :
  x ≠ [] →
  count x * np.sum (zip_with Qmult x x) - np.sum x * np.sum x == 0 →
  ∀ a, a ∈ x → a == mean x.
Proof.
  intros Hne Hdet a Ha.
  pose proof (count_pos x Hne) as Hn.
  assert (Hs : np.sum ((λ x_i, (x_i - mean x) ^ 2) <$> x) == 0).
  { rewrite centered_squares_expand. unfold mean.
    set (Sxx := np.sum (zip_with Qmult x x)) in *.
    set (Sx := np.sum x) in *. set (n := count x) in *.
    assert (He : Sxx - 2 * (Sx / n) * Sx + n * (Sx / n) ^ 2
                 == (n * Sxx - Sx * Sx) / n) by (field; lra).
    rewrite He, Hdet. field. lra. }
  pose proof (sum_squares_zero (λ x_i, x_i - mean x) x Hs a Ha) as Hz.
  simpl in Hz. lra.
Qed.

(** [np.polyfit] returns a line that solves the normal equations. *)
Lemma polyfit_normal_equations (x y : list Q) p :
  np.polyfit x y = Some p →
  length x = length y ∧
  np.sum (zip_with Qmult x y)
    == p.1 * np.sum (zip_with Qmult x x) + p.2 * np.sum x ∧
  np.sum y == p.1 * np.sum x + count x * p.2.
Proof.
  unfold np.polyfit. case_decide as Hl; [|done].
  destruct x as [|x0 x'] eqn:Hx; [done|]. rewrite <- Hx in *.
  assert (Hne : x ≠ []) by (by rewrite Hx).
  pose proof (count_pos x Hne) as Hn.
  fold (count x).
  set (Sxx := np.sum (zip_with Qmult x x)).
  set (Sxy := np.sum (zip_with Qmult x y)).
  set (Sx := np.sum x). set (Sy := np.sum y). set (n := count x) in *.
  destruct (Qeq_bool (n * Sxx - Sx * Sx) 0) eqn:Hdet.
  - apply Qeq_bool_iff in Hdet.
    destruct (Qeq_bool x0 0) eqn:Hx0; [done|].
    apply Qeq_bool_neq in Hx0. intros [= <-]. simpl.
    pose proof (singular_abscissae x Hne Hdet) as Hall.
    assert (Hm : x0 == mean x).
    { apply Hall. rewrite Hx. apply elem_of_cons. by left. }
    assert (HSx : Sx == n * x0).
    { rewrite Hm. unfold mean. fold Sx n. field. lra. }
    assert (HSxy : Sxy == x0 * Sy).
    { rewrite Hm. by apply sum_constant_products. }
    assert (HSxx : Sxx == x0 * (n * x0)).
    { rewrite <- HSx. rewrite Hm at 1.
      by apply sum_constant_products. }
    split; [done|]. rewrite HSx, HSxy, HSxx.
    split; field; split; lra.
  - apply Qeq_bool_neq in Hdet. intros [= <-]. simpl.
    split; [done|]. split; field; split; lra.
Qed.

Lemma polyfit_least_squares (x y : list Q) p :
  np.polyfit x y = Some p → least_squares_line x y p.
Proof.
  intros (Hl & N1 & N2)%polyfit_normal_equations.
  destruct p as [p0 p1]. by apply normal_equations_optimal.
Qed.

Lemma spread_singular (x : list Q) :
  x ≠ [] →
  spread x * count x
    == count x * np.sum (zip_with Qmult x x) - np.sum x * np.sum x.
Proof.
  intros Hne. pose proof (count_pos x Hne) as Hn.
  unfold spread. rewrite centered_squares_expand. unfold mean.
  field. lra.
Qed.


Lemma Forall2_Qeq_fmap (f g : Q → Q) (l : list Q) :
  (∀ x, x ∈ l → f x == g x) → Forall2 Qeq (f <$> l) (g <$> l).
Proof.
  induction l as [|a l IH]; intros H; [constructor|].
  rewrite !fmap_cons. constructor.
  - apply H, elem_of_cons. by left.
  - apply IH. intros x Hx. apply H, elem_of_cons. by right.
Qed.

Lemma zip_with_fmap_both (h : Q → Q → Q) (f g : Q → Q) (l : list Q) :
  zip_with h (f <$> l) (g <$> l) = (λ x, h (f x) (g x)) <$> l.
Proof.
  induction l as [|a l IH]; [done|].
  rewrite !fmap_cons. cbn [zip_with]. by rewrite IH.
Qed.




(** * Further properties of the tuning code *)

(** ** Controller.__init__: keys and stored values *)

Lemma optional_inv params k d y :
  optional params k d = Some y →
  ∃ x, params !! k = Some x ∧ y = if truthy x then x else d.
Proof.
  unfold optional. intros H. apply bind_Some in H as (x & Hx & [= <-]).
  eauto.
Qed.

(** What a constructor call that returns has read: every attribute with
    the dictionary entry it comes from. *)
Lemma init_inv params c :
  __init__ params = Some c →
  params !! "LoggingLevel"%string = Some (LoggingLevel c) ∧
  params !! "F_LPFType"%string = Some (F_LPFType c) ∧
  params !! "F_NotchType"%string = Some (F_NotchType c) ∧
  params !! "IPC_ControlMode"%string = Some (IPC_ControlMode c) ∧
  params !! "VS_ControlMode"%string = Some (VS_ControlMode c) ∧
  params !! "PC_ControlMode"%string = Some (PC_ControlMode c) ∧
  params !! "Y_ControlMode"%string = Some (Y_ControlMode c) ∧
  params !! "SS_Mode"%string = Some (SS_Mode c) ∧
  params !! "WE_Mode"%string = Some (WE_Mode c) ∧
  params !! "PS_Mode"%string = Some (PS_Mode c) ∧
  params !! "zeta_pc"%string = Some (zeta_pc c) ∧
  params !! "omega_pc"%string = Some (omega_pc c) ∧
  params !! "zeta_vs"%string = Some (zeta_vs c) ∧
  params !! "omega_vs"%string = Some (omega_vs c) ∧
  optional params "min_pitch" (PyNum 0) = Some (min_pitch c) ∧
  optional params "max_pitch" (PyNum (90 * deg2rad)) = Some (max_pitch c) ∧
  optional params "ss_vsgain" (PyNum 1) = Some (ss_vsgain c) ∧
  optional params "ss_pcgain" (PyNum 0.001) = Some (ss_pcgain c) ∧
  optional params "ss_cornerfreq" (PyNum 0.62831850001)
    = Some (ss_cornerfreq c) ∧
  optional params "ps_percent" (PyNum 0.75) = Some (ps_percent c).
Proof.
  unfold __init__. intros H.
  repeat match type of H with
         | mbind _ _ = Some _ =>
             let x := fresh "x" in
             let Hx := fresh "Hx" in
             apply bind_Some in H as (x & Hx & H)
         end.
  injection H as <-. simpl. repeat split; assumption.
Qed.

(** X1.  The constructor returns exactly when the dictionary holds each of
    the twenty keys it reads; one missing key, required or optional, is a
    KeyError. *)
Theorem init_returns_iff_keys (controller_params : gmap string PyVal) :
  is_Some (__init__ controller_params) ↔
  ∀ k, k ∈ init_keys → is_Some (controller_params !! k).
Proof.
  split.
  - intros [c Hc]. apply init_inv in Hc.
    repeat match goal with
           | H : _ ∧ _ |- _ => destruct H as [? H]
           | H : optional _ _ _ = Some _ |- _ =>
               apply optional_inv in H as (? & H & _)
           end.
    intros k Hk. unfold init_keys in Hk.
    repeat (apply elem_of_cons in Hk as [->|Hk]; [eauto|]).
    by apply elem_of_nil in Hk.
  - intros Hkeys.
    assert (Hk : Forall (λ k, is_Some (controller_params !! k)) init_keys).
    { apply Forall_forall. intros k Hk. apply Hkeys. exact Hk. }
    unfold init_keys in Hk.
    repeat match goal with
           | H : Forall _ (_ :: _) |- _ =>
               apply Forall_cons in H as [[? ?] H]
           end.
    unfold __init__.
    repeat match goal with
           | H : controller_params !! ?k = Some ?x |- _ =>
               first [ rewrite (optional_Some _ k _ x H)
                     | rewrite H ]; simpl;
               clear H
           end.
    eauto.
Qed.

Lemma truthy_as_num x : truthy x = true → is_Some (as_num x).
Proof. destruct x; simpl; [done|eauto|eauto]. Qed.

(** X2.  A constructed controller never holds a falsy optional parameter,
    but for the zero floor: [max_pitch], [ss_vsgain], [ss_pcgain],
    [ss_cornerfreq] and [ps_percent] are truthy, [min_pitch] is truthy or
    the number 0, and so the two that peak shaving reads stand for
    numbers, a nonzero one for [ps_percent]. *)
Theorem init_optionals_truthy (controller_params : gmap string PyVal) c :
  __init__ controller_params = Some c →
  (truthy (min_pitch c) = true ∨ min_pitch c = PyNum 0) ∧
  truthy (max_pitch c) = true ∧ truthy (ss_vsgain c) = true ∧
  truthy (ss_pcgain c) = true ∧ truthy (ss_cornerfreq c) = true ∧
  truthy (ps_percent c) = true ∧
  is_Some (as_num (min_pitch c)) ∧
  ∃ pp, as_num (ps_percent c) = Some pp ∧ ¬ pp == 0.
Proof.
  intros H. apply init_inv in H.
  destruct H as (_ & _ & _ & _ & _ & _ & _ & _ & _ & _ & _ & _ & _ & _
                 & H1 & H2 & H3 & H4 & H5 & H6).
  apply optional_inv in H1 as (x1 & _ & E1), H2 as (x2 & _ & E2),
    H3 as (x3 & _ & E3), H4 as (x4 & _ & E4), H5 as (x5 & _ & E5),
    H6 as (x6 & _ & E6).
  assert (T2 : truthy (max_pitch c) = true).
  { rewrite E2. destruct (truthy x2) eqn:T; [done | reflexivity]. }
  assert (T3 : truthy (ss_vsgain c) = true).
  { rewrite E3. destruct (truthy x3) eqn:T; [done | reflexivity]. }
  assert (T4 : truthy (ss_pcgain c) = true).
  { rewrite E4. destruct (truthy x4) eqn:T; [done | reflexivity]. }
  assert (T5 : truthy (ss_cornerfreq c) = true).
  { rewrite E5. destruct (truthy x5) eqn:T; [done | reflexivity]. }
  assert (T6 : truthy (ps_percent c) = true).
  { rewrite E6. destruct (truthy x6) eqn:T; [done | reflexivity]. }
  assert (T1 : truthy (min_pitch c) = true ∨ min_pitch c = PyNum 0).
  { rewrite E1. destruct (truthy x1) eqn:T; [by left | by right]. }
  repeat (split; [assumption|]). split.
  - destruct T1 as [T1| ->]; [by apply truthy_as_num | by eexists].
  - destruct (ps_percent c) as [|[]|q]; try discriminate.
    + exists 1. split; [done | discriminate].
    + exists q. split; [done|]. simpl in T6.
      apply negb_true_iff in T6. by apply Qeq_bool_neq in T6.
Qed.

Lemma init_optionals_truthy_witness :
  ∃ c, __init__ example_params = Some c ∧ truthy (max_pitch c) = true ∧
       as_num (ps_percent c) = Some 1.
Proof.
  destruct (__init__ example_params) as [c|] eqn:E.
  - exists c. split; [reflexivity|].
    destruct (init_optionals_truthy _ _ E) as (_ & T & _).
    split; [exact T|].
    vm_compute in E. injection E as <-. reflexivity.
  - vm_compute in E. discriminate.
Defined.

(** ** Controller.tune_controller: when it raises *)

(** A turbine like the concrete one that is cut out right above rated. *)
Definition no_above_rated_turbine : Turbine := {|
  J := 40000000; rho := 1.225; rotor_radius := 63; Ng := 97;
  rated_rotor_speed := 1.267; v_rated := 11.4; v_min := 3; v_max := 11.9;
  Cp := example_Cp; Ct := example_Ct;
  pitch_initial_rad := [-0.1; 0; 0.1; 0.2; 0.3; 0.4];
  TSR_initial := [2; 2.5; 3]
|}.

(** A turbine like the concrete one with a single tabulated pitch. *)
Definition one_pitch_turbine : Turbine := {|
  J := 40000000; rho := 1.225; rotor_radius := 63; Ng := 97;
  rated_rotor_speed := 1.267; v_rated := 11.4; v_min := 3; v_max := 25;
  Cp := example_Cp; Ct := example_Ct;
  pitch_initial_rad := [0];
  TSR_initial := [2; 2.5; 3]
|}.

(** X3.  The constructor stores a [None] damping ratio or natural
    frequency as it is, and [tune_controller] on such a controller raises
    for every turbine. *)
Theorem tune_controller_None_target (controller_params : gmap string PyVal)
    c t :
  __init__ controller_params = Some c →
  controller_params !! "zeta_pc"%string = Some PyNone ∨
  controller_params !! "omega_pc"%string = Some PyNone ∨
  controller_params !! "zeta_vs"%string = Some PyNone ∨
  controller_params !! "omega_vs"%string = Some PyNone →
  tune_controller c t = None.
Proof.
  intros Hc Hnone. apply init_inv in Hc.
  destruct Hc as (_ & _ & _ & _ & _ & _ & _ & _ & _ & _ & Z1 & Z2 & Z3 & Z4
                  & _).
  destruct (tune_controller c t) as [[r ps]|] eqn:H; [exfalso|done].
  destruct (tune_controller_inv _ _ _ _ H)
    as (_ & _ & _ & ? & ? & ? & ? & ? & ? & ? & ? & zpc & opc & zvs & ovs
        & _ & _ & _ & _ & _ & _ & _ & _ & _ & _ & _ & N1 & N2 & N3 & N4 & _).
  destruct Hnone as [E|[E|[E|E]]].
  - rewrite Z1 in E. injection E as E. by rewrite E in N1.
  - rewrite Z2 in E. injection E as E. by rewrite E in N2.
  - rewrite Z3 in E. injection E as E. by rewrite E in N3.
  - rewrite Z4 in E. injection E as E. by rewrite E in N4.
Qed.

Lemma tune_controller_None_target_witness :
  ∃ c,
    __init__ (<["zeta_pc"%string := PyNone]> example_params) = Some c ∧
    tune_controller c example_turbine = None.
Proof.
  destruct (__init__ (<["zeta_pc"%string := PyNone]> example_params))
    as [c|] eqn:E.
  - exists c. split; [reflexivity|].
    apply (tune_controller_None_target _ _ _ E). left. reflexivity.
  - vm_compute in E. discriminate.
Defined.

Lemma arange_empty a b s : 0 < s → b <= a → np.arange a b s = [].
Proof.
  intros Hs Hba. unfold np.arange.
  assert (Hq : (b - a) / s <= 0).
  { apply Qle_shift_div_r; [done|]. lra. }
  apply Qceiling_resp_le in Hq. change (Qceiling 0) with 0%Z in Hq.
  replace (Z.to_nat (Qceiling ((b - a) / s))) with 0%nat by lia. done.
Qed.

(** X4.  When the cut-out wind speed is not above [v_rated + 0.5] there is
    no above-rated wind speed, and [tune_controller] raises (the first
    above-rated tip-speed ratio does not exist). *)
Theorem tune_controller_no_above_rated self_ t :
  v_max t <= v_rated t + 0.5 → tune_controller self_ t = None.
Proof.
  intros Hv. unfold tune_controller. cbv zeta.
  assert (E : Cp_op_target t = None).
  { unfold Cp_op_target, TSR_above_rated_of, v_above_rated_of.
    rewrite arange_empty by (done || reflexivity). done. }
  by rewrite E.
Qed.

Lemma tune_controller_no_above_rated_witness :
  tune_controller example_controller no_above_rated_turbine = None.
Proof. apply tune_controller_no_above_rated. discriminate. Defined.

Lemma diff_lookup_0 (a : list Q) d :
  np.diff a !! 0%nat = Some d → (2 ≤ length a)%nat.
Proof. destruct a as [|x [|y a]]; simpl; [done|done|lia]. Qed.

(** X5.  [tune_controller] raises when the pitch grid or the
    tip-speed-ratio grid of the turbine has fewer than two entries (there
    is no first spacing). *)
Theorem tune_controller_short_grid self_ t :
  (length (pitch_initial_rad t) < 2)%nat ∨
  (length (TSR_initial t) < 2)%nat →
  tune_controller self_ t = None.
Proof.
  intros Hshort.
  destruct (tune_controller self_ t) as [[r ps]|] eqn:H; [exfalso|done].
  destruct (tune_controller_inv _ _ _ _ H)
    as (_ & _ & _ & ? & ? & ? & dpitch & dTSR & ? & ? & ? & ? & ? & ? & ?
        & _ & _ & D1 & D2 & _).
  apply diff_lookup_0 in D1, D2. lia.
Qed.

Lemma tune_controller_short_grid_witness :
  tune_controller example_controller one_pitch_turbine = None.
Proof. apply tune_controller_short_grid. left. simpl. lia. Defined.

(** ** Controller.tune_controller: the stored tables *)






Lemma arange_nonempty_iff a b s :
  0 < s → (0 < length (np.arange a b s))%nat ↔ a < b.
Proof.
  intros Hs. rewrite arange_length. split.
  - intros Hn. destruct (Qlt_le_dec a b) as [|Hba]; [done|].
    assert (Hq : (b - a) / s <= 0).
    { apply Qle_shift_div_r; [done|]. lra. }
    apply Qceiling_resp_le in Hq. change (Qceiling 0) with 0%Z in Hq. lia.
  - intros Hab.
    pose proof (Qle_ceiling ((b - a) / s)) as Hc.
    assert (Hq : 0 < (b - a) / s).
    { apply Qlt_shift_div_l; [done|]. lra. }
    assert (Hz : 0 < inject_Z (Qceiling ((b - a) / s))) by lra.
    change 0 with (inject_Z 0) in Hz. rewrite <- Zlt_Qlt in Hz. lia.
Qed.

(** X7.  The parameter file takes the torque-loop gains from the last
    entry of the torque-loop schedule ([Kp[-1]], [Ki[-1]]); after a run
    that returns, that entry exists exactly when the cut-in wind speed is
    below the rated wind speed. *)
Theorem tune_controller_last_torque_gain self_ t r ps :
  tune_controller self_ t = Some (r, ps) →
  (is_Some (last (Kp (vs_gain_schedule r))) ↔ v_min t < v_rated t) ∧
  (is_Some (last (Ki (vs_gain_schedule r))) ↔ v_min t < v_rated t).
Proof.
  intros H.
  pose proof (tune_controller_shape _ _ _ _ H) as G. cbv zeta in G.
  destruct G as (_ & _ & _ & _ & _ & _ & LKp & LKi & _).
  destruct (tune_controller_inv _ _ _ _ H) as (_ & Hb & _).
  rewrite Hb in LKp, LKi. unfold v_below_rated_of in LKp, LKi.
  assert (Hs : 0 < 0.5) by reflexivity.
  pose proof (arange_nonempty_iff (v_min t) (v_rated t) 0.5 Hs) as Hiff.
  rewrite <- Hiff, <- LKp. rewrite LKp at 2. rewrite <- LKi.
  split; rewrite last_is_Some; (split; [intros Hne | intros Hlen]).
  - destruct (Kp (vs_gain_schedule r)); [done | simpl; lia].
  - intros E. rewrite E in Hlen. simpl in Hlen. lia.
  - destruct (Ki (vs_gain_schedule r)); [done | simpl; lia].
  - intros E. rewrite E in Hlen. simpl in Hlen. lia.
Qed.

Lemma tune_controller_last_torque_gain_witness :
  ∃ r ps,
    tune_controller example_controller example_turbine = Some (r, ps) ∧
    is_Some (last (Kp (vs_gain_schedule r))).
Proof.
  destruct example_tune_returns as (r & ps & H).
  exists r, ps. split; [exact H|].
  apply (proj1 (tune_controller_last_torque_gain _ _ _ _ H)).
  reflexivity.
Defined.

(** The set points a run that returns has stored. *)
Lemma tune_controller_setpoints self_ t r ps :
  tune_controller self_ t = Some (r, ps) →
  vs_rgn2K r
    = 0.5 * rho t * (np.pi * rotor_radius t ^ 2) * rotor_radius t ^ 5
      * surf_max (Cp t) / (TSR_opt (Cp t) ^ 3 * Ng t) ∧
  vs_refspd r
    = Qmin (TSR_opt (Cp t) * v_rated t / rotor_radius t)
           (rated_rotor_speed t) * Ng t ∧
  vs_minspd r = TSR_opt (Cp t) * v_min t / rotor_radius t * Ng t.
Proof.
  unfold tune_controller. cbv zeta. intros H.
  repeat match type of H with
         | mbind _ _ = Some _ =>
             let x := fresh "x" in
             let Hx := fresh "Hx" in
             apply bind_Some in H as (x & Hx & H)
         | (let '(_, _) := ?p in _) = Some _ => destruct p
         end.
  injection H as <- <-. done.
Qed.

(** X8.  For a gearbox ratio that is not negative, the reference generator
    speed a run stores is at most the rated generator speed
    [rated_rotor_speed * Ng] and at most the generator speed of optimal
    tip-speed ratio at rated wind, [TSR_opt * v_rated / R * Ng]; it is one
    of the two. *)
Theorem tune_controller_refspd_bound self_ t r ps :
  tune_controller self_ t = Some (r, ps) → 0 <= Ng t →
  vs_refspd r <= rated_rotor_speed t * Ng t ∧
  vs_refspd r <= TSR_opt (Cp t) * v_rated t / rotor_radius t * Ng t ∧
  (vs_refspd r == rated_rotor_speed t * Ng t ∨
   vs_refspd r == TSR_opt (Cp t) * v_rated t / rotor_radius t * Ng t).
Proof.
  intros H HNg.
  destruct (tune_controller_setpoints _ _ _ _ H) as (_ & -> & _).
  set (a := TSR_opt (Cp t) * v_rated t / rotor_radius t).
  set (b := rated_rotor_speed t).
  split; [|split].
  - apply Qmult_le_compat_r; [apply Q.le_min_r | done].
  - apply Qmult_le_compat_r; [apply Q.le_min_l | done].
  - destruct (Q.min_dec a b) as [E|E]; rewrite E; [right|left]; reflexivity.
Qed.

Lemma tune_controller_refspd_bound_witness :
  ∃ r ps,
    tune_controller example_controller example_turbine = Some (r, ps) ∧
    vs_refspd r <= 1.267 * 97.
Proof.
  destruct example_tune_returns as (r & ps & H).
  exists r, ps. split; [exact H|].
  assert (HNg : 0 <= Ng example_turbine) by discriminate.
  exact (proj1 (tune_controller_refspd_bound _ _ _ _ H HNg)).
Defined.

(** The number of below-rated wind speeds of a run that returns. *)
Lemma tune_controller_wind_grid_length self_ t r ps :
  tune_controller self_ t = Some (r, ps) →
  length (v_below_rated r)
  = Z.to_nat (Qceiling ((v_rated t - v_min t) / 0.5)).
Proof.
  intros H. destruct (tune_controller_inv _ _ _ _ H) as (_ & -> & _).
  apply arange_length.
Qed.

Lemma scaled_ones_lookup (c : Q) (n i : nat) (rest : list Q) :
  (i < n)%nat → (((λ x, x * c) <$> np.ones n) ++ rest) !! i = Some (1 * c).
Proof.
  intros Hi. rewrite lookup_app_l.
  - unfold np.ones. rewrite list_lookup_fmap.
    by rewrite lookup_replicate_2.
  - unfold np.ones. by rewrite length_fmap, length_replicate.
Qed.

(** X9.  Below rated the operating point does not move: after a run that
    returns, all below-rated points have the same tip-speed-ratio target,
    the same saturated power-coefficient target and the same pitch
    angle. *)
Theorem tune_controller_below_rated_constant self_ t r ps i j :
  tune_controller self_ t = Some (r, ps) →
  (i < length (v_below_rated r))%nat →
  (j < length (v_below_rated r))%nat →
  TSR_op r !! i = TSR_op r !! j ∧
  Cp_op r !! i = Cp_op r !! j ∧
  pitch_op r !! i = pitch_op r !! j.
Proof.
  intros H Hi Hj.
  destruct (tune_controller_loop _ _ _ _ H)
    as (Cp0 & dCp_beta & dCp_TSR & HCp0 & Hinv).
  destruct (tune_controller_inv _ _ _ _ H) as (_ & Hb & HT & _).
  rewrite Hb in Hi, Hj.
  assert (HTi : ∀ k, (k < length (v_below_rated_of t))%nat →
            TSR_op r !! k = Some (1 * TSR_opt (Cp t))).
  { intros k Hk. rewrite HT. unfold TSR_below_rated_of.
    by apply scaled_ones_lookup. }
  assert (HCi : ∀ k, (k < length (v_below_rated_of t))%nat →
            Cp0 !! k = Some (1 * surf_max (Cp t))).
  { intros k Hk. unfold Cp_op_target in HCp0.
    apply bind_Some in HCp0 as (tsr0 & _ & [= <-]).
    unfold np.concatenate. by apply scaled_ones_lookup. }
  destruct Hinv as (_ & _ & _ & _ & _ & Hdone).
  assert (Hk : ∀ k, (k < length (v_below_rated_of t))%nat →
            ∃ lo hi f p,
              np.min (interp_surface_slice (Cp t) (pitch_initial_rad t)
                        (1 * TSR_opt (Cp t))) = Some lo ∧
              np.max (interp_surface_slice (Cp t) (pitch_initial_rad t)
                        (1 * TSR_opt (Cp t))) = Some hi ∧
              Cp_op r !! k = Some (np.clip (1 * surf_max (Cp t)) lo hi) ∧
              interpolate.interp1d
                (interp_surface_slice (Cp t) (pitch_initial_rad t)
                   (1 * TSR_opt (Cp t)))
                (pitch_initial_rad t) true None = Some f ∧
              interpolate.call f (np.clip (1 * surf_max (Cp t)) lo hi)
                = Some p ∧
              pitch_op r !! k = Some p).
  { intros k Hk.
    destruct (Hdone k _ (lookup_lt_Some _ _ _ (HTi k Hk)) (HTi k Hk))
      as (target & lo & hi & f & p & Ht & Hlo & Hhi & HC & Hf & Hp & Hpo
          & _).
    rewrite (HCi k Hk) in Ht. injection Ht as <-.
    exists lo, hi, f, p. done. }
  destruct (Hk i Hi) as (lo & hi & f & p & Hlo & Hhi & HC & Hf & Hp & Hpo).
  destruct (Hk j Hj)
    as (lo' & hi' & f' & p' & Hlo' & Hhi' & HC' & Hf' & Hp' & Hpo').
  rewrite Hlo in Hlo'. injection Hlo' as <-.
  rewrite Hhi in Hhi'. injection Hhi' as <-.
  rewrite Hf in Hf'. injection Hf' as <-.
  rewrite Hp in Hp'. injection Hp' as <-.
  rewrite (HTi i Hi), (HTi j Hj), HC, HC', Hpo, Hpo'. done.
Qed.

Lemma tune_controller_below_rated_constant_witness :
  ∃ r ps,
    tune_controller example_controller example_turbine = Some (r, ps) ∧
    pitch_op r !! 0%nat = pitch_op r !! 16%nat.
Proof.
  destruct example_tune_returns as (r & ps & H).
  exists r, ps. split; [exact H|].
  pose proof (tune_controller_wind_grid_length _ _ _ _ H) as Hn.
  assert (E : length (v_below_rated r) = 17%nat).
  { rewrite Hn. reflexivity. }
  apply (tune_controller_below_rated_constant _ _ _ _ 0%nat 16%nat H);
    rewrite E; lia.
Defined.

(** X10.  The torque-loop schedule of a run that returns, for a gearbox
    ratio and an inertia that are not zero: at every below-rated point the
    proportional gain is [-(2*zeta_vs*omega_vs + A[i]) * J / Ng^2] and the
    integral gain is the same number [-omega_vs^2 * J / Ng^2]. *)
Theorem tune_controller_torque_loop_gains self_ t r ps zvs ovs :
  tune_controller self_ t = Some (r, ps) →
  as_num (zeta_vs self_) = Some zvs →
  as_num (omega_vs self_) = Some ovs →
  ¬ Ng t == 0 → ¬ J t == 0 →
  ∀ i a, (i < length (v_below_rated r))%nat → A r !! i = Some a →
    ∃ kp ki,
      Kp (vs_gain_schedule r) !! i = Some kp ∧
      Ki (vs_gain_schedule r) !! i = Some ki ∧
      kp == - (2 * zvs * ovs + a) * J t / Ng t ^ 2 ∧
      ki == - ovs ^ 2 * J t / Ng t ^ 2.
Proof.
  intros H Hz Ho HNg HJ i a Hi Ha.
  pose proof (tune_controller_shape _ _ _ _ H) as G. cbv zeta in G.
  destruct G as (Hn & _ & _ & _ & _ & LA & _ & _ & LBt & _).
  destruct (tune_controller_inv _ _ _ _ H)
    as (_ & Hb & _ & ? & ? & ? & ? & ? & ? & ? & ? & ? & ? & zvs' & ovs'
        & _ & _ & _ & _ & _ & _ & _ & _ & HBt & _ & _ & _ & _ & Hz' & Ho'
        & _ & Hvss & _).
  rewrite Hz in Hz'. injection Hz' as <-.
  rewrite Ho in Ho'. injection Ho' as <-.
  rewrite <- Hb in Hvss, HBt.
  set (nb := length (v_below_rated r)) in *.
  rewrite slice_upto in Hvss.
  rewrite second_order_PI_direct in Hvss.
  2:{ rewrite length_take, LBt. lia. }
  injection Hvss as Hvss. rewrite <- Hvss. cbn [Kp Ki].
  assert (Hbi : B_tau r !! i = Some (- Ng t ^ 2 / J t * 1)).
  { rewrite HBt. unfold np.ones.
    by rewrite list_lookup_fmap, lookup_replicate_2. }
  assert (Hai : take nb (A r) !! i = Some a).
  { by rewrite lookup_take_lt. }
  exists (1 / (- Ng t ^ 2 / J t * 1) * (2 * zvs * ovs + a)),
    (ovs ^ 2 / (- Ng t ^ 2 / J t * 1)).
  split; [|split; [|split]].
  - rewrite lookup_zip_with, !list_lookup_fmap, Hbi, Hai. reflexivity.
  - rewrite list_lookup_fmap, Hbi. reflexivity.
  - field. auto.
  - field. auto.
Qed.

Lemma tune_controller_torque_loop_gains_witness :
  ∃ r ps,
    tune_controller example_controller example_turbine = Some (r, ps) ∧
    ∀ i a, (i < length (v_below_rated r))%nat → A r !! i = Some a →
      ∃ ki, Ki (vs_gain_schedule r) !! i = Some ki ∧
            ki == - 0.3 ^ 2 * 40000000 / 97 ^ 2.
Proof.
  destruct example_tune_returns as (r & ps & H).
  exists r, ps. split; [exact H|].
  intros i a Hi Ha.
  assert (Hz : as_num (zeta_vs example_controller) = Some 0.7)
    by reflexivity.
  assert (Ho : as_num (omega_vs example_controller) = Some 0.3)
    by reflexivity.
  assert (HNg : ¬ Ng example_turbine == 0) by discriminate.
  assert (HJ : ¬ J example_turbine == 0) by discriminate.
  destruct (tune_controller_torque_loop_gains _ _ _ _ _ _ H Hz Ho HNg HJ
              i a Hi Ha) as (kp & ki & _ & Hki & _ & Ev).
  exists ki. split; [exact Hki | exact Ev].
Defined.

(** ** ControllerTypes.second_order_PI: linearization *)

(** X11.  With linearization, [second_order_PI] returns only when it is
    given wind speeds, at least one, and as many as there are entries in
    [A] and in [B]; the gains then have that length.  Without wind speeds
    ([v = None]), with none, or with a different number of them, it
    raises. *)
Theorem second_order_PI_linearize_needs_v zeta om_n (A B : list Q) v r :
  second_order_PI zeta om_n A B true v = Some r →
  ∃ v', v = Some v' ∧ v' ≠ [] ∧
        length v' = length A ∧ length v' = length B ∧
        length (Kp r) = length v' ∧ length (Ki r) = length v'.
Proof.
  intros H. destruct v as [v'|]; [|done]. exists v'.
  split; [done|].
  pose proof H as H'.
  apply second_order_PI_linearized in H' as (pA & pB & HpA & HpB & Hr).
  pose proof (polyfit_Some_length _ _ _ HpA) as LA.
  pose proof (polyfit_Some_length _ _ _ HpB) as LB.
  rewrite second_order_PI_direct in Hr by (by rewrite !polyval1_length).
  injection Hr as <-. cbn [Kp Ki].
  rewrite length_zip_with, !length_fmap, !polyval1_length.
  repeat split; try done; try lia.
  intros ->. unfold np.polyfit in HpA. by case_decide.
Qed.

Lemma second_order_PI_linearize_needs_v_witness :
  ∃ r v',
    second_order_PI 0.7 0.3 [-0.1; -0.2; -0.4] [-1; -2; -4] true
      (Some [12; 13; 14]) = Some r ∧
    Some [12; 13; 14] = Some v' ∧ length (Kp r) = length v'.
Proof.
  destruct (second_order_PI 0.7 0.3 [-0.1; -0.2; -0.4] [-1; -2; -4] true
              (Some [12; 13; 14])) as [r|] eqn:E.
  - destruct (second_order_PI_linearize_needs_v _ _ _ _ _ _ E)
      as (v' & Hv & _ & _ & _ & HK & _).
    exists r, v'. split; [reflexivity|]. split; [exact Hv | exact HK].
  - vm_compute in E. discriminate.
Defined.

Lemma polyfit_regular (x y : list Q) :
  length x = length y → ¬ spread x == 0 → is_Some (np.polyfit x y).
Proof.
  intros Hl Hs.
  assert (Hne : x ≠ []).
  { intros ->. apply Hs. reflexivity. }
  pose proof (count_pos x Hne) as Hn.
  pose proof (spread_singular x Hne) as Hdet.
  unfold np.polyfit. rewrite decide_True by done.
  destruct x as [|x0 x'] eqn:Hx; [done|]. rewrite <- Hx in *.
  fold (count x).
  destruct (Qeq_bool _ 0) eqn:E; [|eauto].
  apply Qeq_bool_iff in E. rewrite <- Hdet in E.
  exfalso. apply Hs. nra.
Qed.

(** X12.  With linearization, [second_order_PI] returns whenever [A] and
    [B] have as many entries as there are wind speeds and the wind speeds
    are not all equal. *)
Theorem second_order_PI_linearize_returns zeta om_n (A B v : list Q) :
  length v = length A → length v = length B → ¬ spread v == 0 →
  is_Some (second_order_PI zeta om_n A B true (Some v)).
Proof.
  intros LA LB Hs.
  destruct (polyfit_regular v A LA Hs) as [pA HpA].
  destruct (polyfit_regular v B LB Hs) as [pB HpB].
  unfold second_order_PI. simpl. rewrite HpA, HpB. simpl.
  unfold np.mul. rewrite broadcast_same_length; [eauto|].
  by rewrite !length_fmap, !polyval1_length.
Qed.

Lemma second_order_PI_linearize_returns_witness :
  is_Some (second_order_PI 0.7 0.3 [-0.1; -0.2; -0.4] [-1; -2; -4] true
             (Some [12; 13; 14])).
Proof.
  apply second_order_PI_linearize_returns.
  - reflexivity.
  - reflexivity.
  - vm_compute. discriminate.
Defined.

Lemma sse_of_line (x : list Q) a b p0 p1 :
  sse x (polyval1 (a, b) x) p0 p1
  == np.sum ((λ x_i, ((a - p0) * x_i + (b - p1)) ^ 2) <$> x).
Proof.
  unfold sse, polyval1. cbn [fst snd].
  induction x as [|x0 x IH]; [reflexivity|].
  rewrite !fmap_cons. cbn [zip_with]. rewrite !sum_cons, IH. ring.
Qed.

(** A least-squares line of samples that lie on a line goes through
    every sample. *)
Lemma least_squares_of_line (x : list Q) a b p :
  least_squares_line x (polyval1 (a, b) x) p →
  ∀ x_i, x_i ∈ x → p.1 * x_i + p.2 == a * x_i + b.
Proof.
  intros Hls x_i Hx.
  pose proof (Hls a b) as Hle.
  rewrite !sse_of_line in Hle.
  assert (Hz : np.sum ((λ x_i, ((a - a) * x_i + (b - b)) ^ 2) <$> x) == 0).
  { clear. induction x as [|x0 x IH]; [reflexivity|].
    rewrite fmap_cons, sum_cons, IH. ring. }
  pose proof (sum_squares_nonneg (λ x_i, (a - p.1) * x_i + (b - p.2)) x)
    as Hnn.
  cbv beta in Hnn.
  assert (H0 : np.sum ((λ x_i, ((a - p.1) * x_i + (b - p.2)) ^ 2) <$> x)
               == 0) by lra.
  pose proof (sum_squares_zero (λ x_i, (a - p.1) * x_i + (b - p.2)) x H0
                x_i Hx) as Hr.
  cbv beta in Hr.
  assert (E : p.1 * x_i + p.2
              == a * x_i + b - ((a - p.1) * x_i + (b - p.2))) by ring.
  rewrite E, Hr. ring.
Qed.

(** X13.  Linearization leaves plant coefficients that already lie on a
    line in the wind speed as they are: for [A = a*v + b] and
    [B = c*v + d], the gains computed with linearization equal the gains
    computed without. *)
Theorem second_order_PI_linearize_affine zeta om_n (v : list Q) a b c d r :
  second_order_PI zeta om_n (polyval1 (a, b) v) (polyval1 (c, d) v) true
    (Some v) = Some r →
  ∃ r',
    second_order_PI zeta om_n (polyval1 (a, b) v) (polyval1 (c, d) v)
      false None = Some r' ∧
    Forall2 Qeq (Kp r) (Kp r') ∧ Forall2 Qeq (Ki r) (Ki r').
Proof.
  intros H.
  apply second_order_PI_linearized in H as (pA & pB & HpA & HpB & H).
  apply polyfit_least_squares in HpA, HpB.
  pose proof (least_squares_of_line _ _ _ _ HpA) as EA.
  pose proof (least_squares_of_line _ _ _ _ HpB) as EB.
  rewrite second_order_PI_direct in H by (by rewrite !polyval1_length).
  injection H as <-.
  eexists. split.
  { apply second_order_PI_direct. by rewrite !polyval1_length. }
  cbn [Kp Ki]. unfold polyval1. cbn [fst snd].
  rewrite <- !list_fmap_compose, !zip_with_fmap_both.
  split; apply Forall2_Qeq_fmap; intros x Hx; unfold compose;
    rewrite ?(EA x Hx), ?(EB x Hx); reflexivity.
Qed.

Lemma second_order_PI_linearize_affine_witness :
  ∃ r r',
    second_order_PI 0.7 0.3 (polyval1 (-0.1, 1) [12; 13; 14])
      (polyval1 (-1, 2) [12; 13; 14]) true (Some [12; 13; 14]) = Some r ∧
    second_order_PI 0.7 0.3 (polyval1 (-0.1, 1) [12; 13; 14])
      (polyval1 (-1, 2) [12; 13; 14]) false None = Some r' ∧
    Forall2 Qeq (Kp r) (Kp r').
Proof.
  destruct (second_order_PI 0.7 0.3 (polyval1 (-0.1, 1) [12; 13; 14])
              (polyval1 (-1, 2) [12; 13; 14]) true (Some [12; 13; 14]))
    as [r|] eqn:E.
  - destruct (second_order_PI_linearize_affine _ _ _ _ _ _ _ _ E)
      as (r' & Hr' & HK & _).
    exists r, r'. split; [reflexivity|]. split; [exact Hr' | exact HK].
  - vm_compute in E. discriminate.
Defined.

(** ** ControllerBlocks.peak_shaving: thrust and its cap *)

(** Stored tuning variables with no operating point. *)
Definition empty_tuned : Tuned := {|
  pc_gain_schedule := {| Kp := []; Ki := [] |};
  vs_gain_schedule := {| Kp := []; Ki := [] |};
  vs_rgn2K := 0; vs_refspd := 0; vs_minspd := 0;
  v := []; v_below_rated := []; Cp_op := []; pitch_op := [];
  pitch_op_pc := []; TSR_op := []; A := []; B_beta := []; B_tau := []
|}.

(** X14.  [peak_shaving] raises on a trajectory without operating points:
    the thrust [T] is bound only inside the first loop, which then never
    runs. *)
Theorem peak_shaving_empty_trajectory self_ c t :
  TSR_op c = [] → peak_shaving self_ c t = None.
Proof. intros E. unfold peak_shaving. rewrite E. reflexivity. Qed.

Lemma peak_shaving_empty_trajectory_witness :
  peak_shaving example_controller empty_tuned example_turbine = None.
Proof. apply peak_shaving_empty_trajectory. reflexivity. Defined.

(** The first loop of [peak_shaving] after [k] iterations, with the values
    it has stored: the thrust coefficient of the surface at every operating
    point so far. *)
Definition unshaved_values_inv (c : Tuned) (t : Turbine) (k : nat)
    (s : list Q * option (list Q)) : Prop :=
  unshaved_inv c t k s ∧
  ∀ i tsr, (i < k)%nat → TSR_op c !! i = Some tsr →
    ∃ p, pitch_op c !! i = Some p ∧
         s.1 !! i = Some (interp_surface (Ct t) p tsr).

Lemma unshaved_body_values c t k s s' :
  unshaved_values_inv c t k s → unshaved_body c t k s = Some s' →
  unshaved_values_inv c t (S k) s'.
Proof.
  intros [Hinv Hval] H. split; [by eapply unshaved_body_inv|].
  destruct s as [Ct_op T0]. unfold unshaved_body in H.
  apply bind_Some in H as (pitch & Hp & H).
  apply bind_Some in H as (tsr & Ht & H).
  apply bind_Some in H as (Ct_op' & Hst & H).
  apply bind_Some in H as (T' & HT & [= <-]). simpl in *.
  intros i tsr' Hi Hti. destruct (decide (i = k)) as [->|Hne].
  - rewrite Ht in Hti. injection Hti as <-.
    exists pitch. split; [done|].
    by rewrite (store_lookup_eq _ _ _ _ Hst).
  - rewrite (store_lookup_ne _ _ _ _ _ Hst) by done.
    apply Hval; [lia|done].
Qed.

(** What a call of [peak_shaving] that returns has computed, with the
    unshaved thrust coefficients. *)
Lemma peak_shaving_inv_values self_ c t ps :
  peak_shaving self_ c t = Some ps →
  ∃ Ct_op1 pp T_peak,
    (0 < length (TSR_op c))%nat ∧
    length Ct_op1 = length (TSR_op c) ∧
    (∀ i tsr, TSR_op c !! i = Some tsr →
       ∃ p, pitch_op c !! i = Some p ∧
            Ct_op1 !! i = Some (interp_surface (Ct t) p tsr)) ∧
    np.mul (thrust_factor t (v c)) Ct_op1 = Some (T ps) ∧
    as_num (ps_percent self_) = Some pp ∧
    np.max (T ps) = Some T_peak ∧
    shave_inv c t (T ps) (pp * T_peak) Ct_op1 (length (pitch_op c))
      (length (TSR_op c)) (Ct_op ps, Ct_max ps, pitch_min ps) ∧
    np.mul (thrust_factor t (v c)) (Ct_op ps) = Some (Tshaved ps).
Proof.
  intros Hps. pose proof Hps as H.
  unfold peak_shaving in H. cbv zeta in H.
  apply bind_Some in H as ([Ct_op1 T0] & Hloop1 & H).
  apply bind_Some in H as (T1 & -> & H).
  apply bind_Some in H as (pp & Hpp & H).
  apply bind_Some in H as (T_peak & Hpeak & H).
  apply bind_Some in H as (mp & Hmp & H).
  apply bind_Some in H as ([[Ct_op2 Ct_max2] pitch_min2] & Hloop2 & H).
  apply bind_Some in H as (Tshaved2 & HTs & E).
  assert (Hpos : (0 < length (TSR_op c))%nat).
  { destruct (length (TSR_op c)) eqn:En; [|lia]. discriminate Hloop1. }
  apply (for_range_ind (unshaved_values_inv c t)) in Hloop1.
  2:{ split; [split; [|done]|].
      - simpl. unfold np.empty. by rewrite length_replicate.
      - intros i tsr Hi. lia. }
  2:{ intros i x y _. apply unshaved_body_values. }
  destruct Hloop1 as [[L HT] Hval]. simpl in L, HT, Hval.
  injection E as <-. simpl in *.
  exists Ct_op1, pp, T_peak.
  repeat (split; [done|]).
  split.
  { intros i tsr Hi. apply Hval; [by apply lookup_lt_Some in Hi|done]. }
  repeat (split; [done|]).
  split; [|done].
  apply (for_range_ind
           (shave_inv c t T1 (pp * T_peak) Ct_op1 (length (pitch_op c))))
    in Hloop2; [done| |].
  - unfold shave_inv, np.empty, np.ones.
    rewrite length_replicate, length_fmap, length_replicate.
    repeat split; try done. intros i tsr Hi. lia.
  - intros i x y _. apply shave_body_inv.
Qed.

Lemma thrust_factor_lookup t (v : list Q) i v_i :
  v !! i = Some v_i →
  thrust_factor t v !! i
  = Some (0.5 * rho t * (np.pi * rotor_radius t ^ 2) * v_i ^ 2).
Proof.
  intros H. unfold thrust_factor. by rewrite list_lookup_fmap, H.
Qed.

(** X15.  The unshaved thrust of a call that returns, on a trajectory with
    one wind speed per operating point: there is one thrust per operating
    point, and it is [0.5*rho*A*v[i]^2] times the thrust coefficient of
    the surface at that point's pitch and tip-speed ratio. *)
Theorem peak_shaving_unshaved_thrust self_ c t ps :
  peak_shaving self_ c t = Some ps →
  length (v c) = length (TSR_op c) →
  length (T ps) = length (TSR_op c) ∧
  ∀ i tsr, TSR_op c !! i = Some tsr →
    ∃ v_i p,
      v c !! i = Some v_i ∧ pitch_op c !! i = Some p ∧
      T ps !! i
      = Some (0.5 * rho t * (np.pi * rotor_radius t ^ 2) * v_i ^ 2
              * interp_surface (Ct t) p tsr).
Proof.
  intros H Hl.
  destruct (peak_shaving_inv_values _ _ _ _ H)
    as (Ct_op1 & pp & T_peak & _ & L1 & Hval & HT & _).
  assert (Lf : length (thrust_factor t (v c)) = length Ct_op1).
  { unfold thrust_factor. rewrite length_fmap. congruence. }
  apply broadcast_Some_length in HT as [HT LT]; [|done].
  split; [congruence|].
  intros i tsr Hi. destruct (Hval i tsr Hi) as (p & Hp & HC).
  destruct (lookup_lt_is_Some_2 (v c) i) as [v_i Hv].
  { rewrite Hl. by apply lookup_lt_Some in Hi. }
  exists v_i, p. split; [done|]. split; [done|].
  rewrite HT, lookup_zip_with, (thrust_factor_lookup _ _ _ _ Hv), HC.
  reflexivity.
Qed.

Lemma peak_shaving_unshaved_thrust_witness :
  ∃ r ps,
    tune_controller example_controller example_turbine = Some (r, ps) ∧
    length (T ps) = length (TSR_op r).
Proof.
  destruct example_tune_returns as (r & ps & H).
  exists r, ps. split; [exact H|].
  assert (Hps : peak_shaving example_controller r example_turbine
                = Some ps).
  { destruct (tune_controller_inv _ _ _ _ H)
      as (_ & _ & _ & ? & ? & ? & ? & ? & ? & ? & ? & ? & ? & ? & ? & G).
    apply G. }
  assert (Hl : length (v r) = length (TSR_op r)).
  { pose proof (tune_controller_shape _ _ _ _ H) as G. cbv zeta in G.
    destruct G as (_ & _ & G & _). symmetry. exact G. }
  exact (proj1 (peak_shaving_unshaved_thrust _ _ _ _ Hps Hl)).
Defined.

(** X16.  Peak shaving caps the thrust.  For a call that returns on a
    trajectory with one wind speed per operating point, none of them zero,
    and an air density and a rotor radius that are not zero, with
    [Tmax = ps_percent * max(T)]: the shaved thrust of every point is at
    most [Tmax]; it is the unshaved thrust where that one does not exceed
    [Tmax], and [Tmax] where it does. *)
Theorem peak_shaving_caps_thrust self_ c t ps pp T_peak :
  peak_shaving self_ c t = Some ps →
  length (v c) = length (TSR_op c) →
  ¬ rho t == 0 → ¬ rotor_radius t == 0 →
  (∀ x, x ∈ v c → ¬ x == 0) →
  as_num (ps_percent self_) = Some pp →
  np.max (T ps) = Some T_peak →
  length (Tshaved ps) = length (T ps) ∧
  ∀ i T_i, T ps !! i = Some T_i →
    ∃ s, Tshaved ps !! i = Some s ∧
         s <= pp * T_peak ∧
         (T_i <= pp * T_peak → s = T_i) ∧
         (pp * T_peak < T_i → s == pp * T_peak).
Proof.
  intros H Hl Hrho HR Hv Hpp Hpeak.
  destruct (peak_shaving_inv_values _ _ _ _ H)
    as (Ct_op1 & pp' & T_peak' & _ & L1 & _ & HT & Hpp' & Hpeak' & Hsh
        & HTs).
  rewrite Hpp in Hpp'. injection Hpp' as <-.
  rewrite Hpeak in Hpeak'. injection Hpeak' as <-.
  destruct Hsh as (S1 & _ & _ & _ & Hdone).
  assert (Lf : length (thrust_factor t (v c)) = length (TSR_op c)).
  { unfold thrust_factor. by rewrite length_fmap. }
  apply broadcast_Some_length in HT as [HT LT]; [|congruence].
  apply broadcast_Some_length in HTs as [HTs LTs]; [|congruence].
  split; [congruence|].
  intros i T_i HTi.
  assert (Hi : (i < length (TSR_op c))%nat).
  { apply lookup_lt_Some in HTi. congruence. }
  destruct (lookup_lt_is_Some_2 _ _ Hi) as [tsr Htsr].
  destruct (Hdone i tsr Hi Htsr)
    as (v_i & T_i' & pf & pl & f & cm & p & Hvi & HTi' & Hif & _).
  rewrite HTi in HTi'. injection HTi' as <-.
  pose proof (thrust_factor_lookup t _ _ _ Hvi) as Hfi.
  assert (Hvne : ¬ v_i == 0).
  { apply Hv. by apply list_elem_of_lookup_2 in Hvi. }
  assert (Hpi : ¬ np.pi == 0) by discriminate.
  unfold interpolate.Qltb in Hif.
  destruct (Qle_bool T_i (pp * T_peak)) eqn:Hcmp; simpl in Hif.
  - apply Qle_bool_iff in Hcmp. destruct Hif as [_ Hsame].
    exists T_i. split; [|split; [done|split; [done|]]].
    + rewrite HTs, lookup_zip_with, Hfi, Hsame.
      rewrite HT, lookup_zip_with, Hfi in HTi. exact HTi.
    + intros Hlt. lra.
  - assert (Hgt : pp * T_peak < T_i).
    { apply Qnot_le_lt. intros Hle. apply Qle_bool_iff in Hle. congruence. }
    destruct Hif as [-> Hop].
    eexists. split.
    { rewrite HTs, lookup_zip_with, Hfi, Hop. reflexivity. }
    assert (E : 0.5 * rho t * (np.pi * rotor_radius t ^ 2) * v_i ^ 2
                * Ct_ceiling t (pp * T_peak) v_i == pp * T_peak).
    { unfold Ct_ceiling. field. auto. }
    split; [|split].
    + rewrite E. apply Qle_refl.
    + intros Hle. lra.
    + intros _. exact E.
Qed.

Lemma tune_controller_wind_speeds_positive self_ t r ps :
  tune_controller self_ t = Some (r, ps) →
  0 < v_min t → 0 <= v_rated t → ∀ x, x ∈ v r → 0 < x.
Proof.
  intros H Hmin Hrated x Hx.
  destruct (tune_controller_inv _ _ _ _ H) as (Hv & _).
  rewrite Hv in Hx. apply elem_of_app in Hx as [Hx|Hx];
    apply list_elem_of_lookup_1 in Hx as [i Hi];
    apply arange_bounds in Hi as [? _]; try reflexivity; lra.
Qed.

Lemma peak_shaving_caps_thrust_witness :
  ∃ r ps T_peak,
    tune_controller example_controller example_turbine = Some (r, ps) ∧
    np.max (T ps) = Some T_peak ∧
    ∀ i T_i, T ps !! i = Some T_i →
      ∃ s, Tshaved ps !! i = Some s ∧ s <= 1 * T_peak.
Proof.
  destruct example_tune_returns as (r & ps & H).
  assert (Hps : peak_shaving example_controller r example_turbine
                = Some ps).
  { destruct (tune_controller_inv _ _ _ _ H)
      as (_ & _ & _ & ? & ? & ? & ? & ? & ? & ? & ? & ? & ? & ? & ? & G).
    apply G. }
  assert (Hl : length (v r) = length (TSR_op r)).
  { pose proof (tune_controller_shape _ _ _ _ H) as G. cbv zeta in G.
    destruct G as (_ & _ & G & _). symmetry. exact G. }
  destruct (peak_shaving_inv _ _ _ _ Hps)
    as (_ & _ & T_peak & _ & _ & _ & Hpeak & _).
  exists r, ps, T_peak. split; [exact H|]. split; [exact Hpeak|].
  assert (Hrho : ¬ rho example_turbine == 0) by discriminate.
  assert (HR : ¬ rotor_radius example_turbine == 0) by discriminate.
  assert (Hv : ∀ x, x ∈ v r → ¬ x == 0).
  { intros x Hx.
    assert (Hmin : 0 < v_min example_turbine) by reflexivity.
    assert (Hrated : 0 <= v_rated example_turbine) by discriminate.
    pose proof (tune_controller_wind_speeds_positive _ _ _ _ H Hmin Hrated
                  x Hx) as Hpos.
    intros E. rewrite E in Hpos. discriminate Hpos. }
  assert (Hpp : as_num (ps_percent example_controller) = Some 1)
    by reflexivity.
  destruct (peak_shaving_caps_thrust _ _ _ _ _ _ Hps Hl Hrho HR Hv Hpp Hpeak)
    as [_ G].
  intros i T_i HTi. destruct (G i T_i HTi) as (s & Hs & Hle & _).
  exists s. split; [exact Hs | exact Hle].
Defined.

(** ** Interpolation stays within the samples *)

Lemma searchsorted_below (l : list (Q * Q)) x j p :
  (j < interpolate.searchsorted l x)%nat → l !! j = Some p → p.1 < x.
Proof.
  revert j. induction l as [|q l IH]; intros j Hj Hp; [simpl in Hj; lia|].
  simpl in Hj. unfold interpolate.Qltb in Hj.
  destruct (Qle_bool x q.1) eqn:E; simpl in Hj; [lia|].
  destruct j as [|j].
  - injection Hp as <-. apply Qnot_le_lt. intros Hle.
    apply Qle_bool_iff in Hle. congruence.
  - apply (IH j); [lia | done].
Qed.

Lemma searchsorted_at (l : list (Q * Q)) x p :
  l !! interpolate.searchsorted l x = Some p → x <= p.1.
Proof.
  induction l as [|q l IH]; [done|]. simpl.
  unfold interpolate.Qltb. destruct (Qle_bool x q.1) eqn:E; simpl.
  - intros [= <-]. by apply Qle_bool_iff.
  - exact IH.
Qed.

Lemma searchsorted_le_length (l : list (Q * Q)) x :
  (interpolate.searchsorted l x ≤ length l)%nat.
Proof.
  induction l as [|q l IH]; simpl; [lia|].
  destruct (interpolate.Qltb q.1 x); lia.
Qed.

(** A point of the chord between two samples lies between their
    ordinates. *)
Lemma chord_between y_lo y_hi tau :
  0 <= tau → tau <= 1 →
  Qmin y_lo y_hi <= y_lo + (y_hi - y_lo) * tau ∧
  y_lo + (y_hi - y_lo) * tau <= Qmax y_lo y_hi.
Proof.
  intros H0 H1.
  destruct (Qlt_le_dec y_lo y_hi) as [Hlt|Hle].
  - rewrite Q.min_l, Q.max_r by lra. split; nra.
  - rewrite Q.min_r, Q.max_l by lra. split; nra.
Qed.

Lemma Qltb_false a b : interpolate.Qltb a b = false → b <= a.
Proof.
  unfold interpolate.Qltb. intros H. apply negb_false_iff in H.
  by apply Qle_bool_iff.
Qed.

Lemma Qltb_true a b : interpolate.Qltb a b = true → a < b.
Proof.
  unfold interpolate.Qltb. intros H. apply negb_true_iff in H.
  apply Qnot_le_lt. intros Hle. apply Qle_bool_iff in Hle. congruence.
Qed.

(** Between the first and the last sample, the interpolated value lies
    between the ordinates of the two bracketing samples. *)
Lemma chord_in_range (l : list (Q * Q)) x x_lo y_lo x_hi y_hi
    x_first y_first x_last y_last :
  let i := Nat.min (Nat.max (interpolate.searchsorted l x) 1)
                   (length l - 1) in
  l !! (i - 1)%nat = Some (x_lo, y_lo) →
  l !! i = Some (x_hi, y_hi) →
  head l = Some (x_first, y_first) →
  last l = Some (x_last, y_last) →
  x_first <= x → x <= x_last →
  Qmin y_lo y_hi <= (y_hi - y_lo) / (x_hi - x_lo) * (x - x_lo) + y_lo ∧
  (y_hi - y_lo) / (x_hi - x_lo) * (x - x_lo) + y_lo <= Qmax y_lo y_hi.
Proof.
  intros i Hlo Hhi Hfirst Hlast Hge Hle.
  set (tau := (x - x_lo) / (x_hi - x_lo)).
  assert (E : (y_hi - y_lo) / (x_hi - x_lo) * (x - x_lo) + y_lo
              == y_lo + (y_hi - y_lo) * tau).
  { unfold tau, Qdiv. ring. }
  rewrite E. apply chord_between.
  - (* 0 <= tau *)
    destruct (interpolate.searchsorted l x) as [|s] eqn:Es.
    + assert (Hi : (i - 1 = 0)%nat) by (subst i; lia).
      rewrite Hi in Hlo. rewrite head_lookup in Hfirst.
      rewrite Hfirst in Hlo. injection Hlo as <- <-.
      pose proof (searchsorted_at l x (x_first, y_first)) as Hat.
      rewrite Es in Hat. specialize (Hat Hfirst). simpl in Hat.
      assert (Ex : x - x_first == 0) by lra.
      unfold tau. rewrite Ex. unfold Qdiv. rewrite Qmult_0_l.
      apply Qle_refl.
    + destruct (decide (S s ≤ length l - 1)%nat) as [Hin|Hout].
      * assert (Hi : i = S s) by (subst i; lia).
        rewrite Hi in Hlo, Hhi. simpl in Hlo. rewrite Nat.sub_0_r in Hlo.
        pose proof (searchsorted_below l x s (x_lo, y_lo)) as Hb.
        rewrite Es in Hb. specialize (Hb ltac:(lia) Hlo). simpl in Hb.
        pose proof (searchsorted_at l x (x_hi, y_hi)) as Hat.
        rewrite Es in Hat. specialize (Hat Hhi). simpl in Hat.
        unfold tau. apply Qle_shift_div_l; lra.
      * exfalso. pose proof (searchsorted_le_length l x) as Hs.
        rewrite Es in Hs. rewrite last_lookup in Hlast.
        pose proof (searchsorted_below l x (pred (length l))
                      (x_last, y_last)) as Hb.
        rewrite Es in Hb. specialize (Hb ltac:(lia) Hlast). simpl in Hb.
        lra.
  - (* tau <= 1 *)
    destruct (interpolate.searchsorted l x) as [|s] eqn:Es.
    + assert (Hi : (i - 1 = 0)%nat) by (subst i; lia).
      rewrite Hi in Hlo. rewrite head_lookup in Hfirst.
      rewrite Hfirst in Hlo. injection Hlo as <- <-.
      pose proof (searchsorted_at l x (x_first, y_first)) as Hat.
      rewrite Es in Hat. specialize (Hat Hfirst). simpl in Hat.
      assert (Ex : x - x_first == 0) by lra.
      unfold tau. rewrite Ex. unfold Qdiv. rewrite Qmult_0_l.
      discriminate.
    + destruct (decide (S s ≤ length l - 1)%nat) as [Hin|Hout].
      * assert (Hi : i = S s) by (subst i; lia).
        rewrite Hi in Hlo, Hhi. simpl in Hlo. rewrite Nat.sub_0_r in Hlo.
        pose proof (searchsorted_below l x s (x_lo, y_lo)) as Hb.
        rewrite Es in Hb. specialize (Hb ltac:(lia) Hlo). simpl in Hb.
        pose proof (searchsorted_at l x (x_hi, y_hi)) as Hat.
        rewrite Es in Hat. specialize (Hat Hhi). simpl in Hat.
        unfold tau. apply Qle_shift_div_r; lra.
      * exfalso. pose proof (searchsorted_le_length l x) as Hs.
        rewrite Es in Hs. rewrite last_lookup in Hlast.
        pose proof (searchsorted_below l x (pred (length l))
                      (x_last, y_last)) as Hb.
        rewrite Es in Hb. specialize (Hb ltac:(lia) Hlast). simpl in Hb.
        lra.
Qed.

(** A value returned by an interpolant lies between the ordinates of two
    of its samples, or is one of its two fill values. *)
Lemma call_range f x y :
  interpolate.call f x = Some y →
  (∃ p q, p ∈ interpolate.xy f ∧ q ∈ interpolate.xy f ∧
          Qmin p.2 q.2 <= y ∧ y <= Qmax p.2 q.2) ∨
  (∃ a b, interpolate.fill_value f = Some (a, b) ∧ (y = a ∨ y = b)).
Proof.
  unfold interpolate.call. cbv zeta. intros H.
  apply bind_Some in H as ([x_lo y_lo] & Hlo & H).
  apply bind_Some in H as ([x_hi y_hi] & Hhi & H).
  apply bind_Some in H as ([x_first y_first] & Hfirst & H).
  apply bind_Some in H as ([x_last y_last] & Hlast & H).
  assert (Hin : interpolate.Qltb x x_first = false →
                interpolate.Qltb x_last x = false →
                ∃ p q, p ∈ interpolate.xy f ∧ q ∈ interpolate.xy f ∧
                  Qmin p.2 q.2
                    <= (y_hi - y_lo) / (x_hi - x_lo) * (x - x_lo) + y_lo ∧
                  (y_hi - y_lo) / (x_hi - x_lo) * (x - x_lo) + y_lo
                    <= Qmax p.2 q.2).
  { intros Hb Ha. apply Qltb_false in Hb, Ha.
    exists (x_lo, y_lo), (x_hi, y_hi).
    split; [by apply list_elem_of_lookup_2 in Hlo|].
    split; [by apply list_elem_of_lookup_2 in Hhi|].
    by eapply chord_in_range. }
  destruct (interpolate.Qltb x x_first) eqn:Hb;
    destruct (interpolate.Qltb x_last x) eqn:Ha;
    destruct (interpolate.bounds_error f);
    destruct (interpolate.fill_value f) as [[a b]|]; simpl in H;
    try discriminate; injection H as <-;
    try (left; by apply Hin);
    right; exists a, b; (split; [done|]); auto.
Qed.

Lemma insert_sorted_elem p q (l : list (Q * Q)) :
  q ∈ interpolate.insert_sorted p l → q = p ∨ q ∈ l.
Proof.
  induction l as [|a l IH]; simpl.
  - intros ->%list_elem_of_singleton. by left.
  - destruct (Qle_bool a.1 p.1).
    + intros [->|Hq]%elem_of_cons.
      * right. apply elem_of_cons. by left.
      * destruct (IH Hq) as [->|?]; [by left|].
        right. apply elem_of_cons. by right.
    + intros [->|Hq]%elem_of_cons; [by left | by right].
Qed.

Lemma argsort_pairs_elem q (l : list (Q * Q)) :
  q ∈ interpolate.argsort_pairs l → q ∈ l.
Proof.
  unfold interpolate.argsort_pairs.
  assert (G : ∀ acc, q ∈ foldl (λ acc p, interpolate.insert_sorted p acc)
                          acc l → q ∈ acc ∨ q ∈ l).
  { induction l as [|a l IH]; intros acc; simpl; [by left|].
    intros Hq. destruct (IH _ Hq) as [Hq'|Hq'].
    - apply insert_sorted_elem in Hq' as [->|?]; [|by left].
      right. apply elem_of_cons. by left.
    - right. apply elem_of_cons. by right. }
  intros Hq. destruct (G [] Hq) as [Hn|?]; [|done].
  by apply elem_of_nil in Hn.
Qed.

(** The interpolant of [interp1d(x, y)] never leaves the range of [y], when
    its fill values, if any, are entries of [y]. *)
Lemma interp1d_call_range (xs ys : list Q) be fill f x y lo hi :
  interpolate.interp1d xs ys be fill = Some f →
  (∀ a b, fill = Some (a, b) → a ∈ ys ∧ b ∈ ys) →
  interpolate.call f x = Some y →
  np.min ys = Some lo → np.max ys = Some hi →
  lo <= y ∧ y <= hi.
Proof.
  unfold interpolate.interp1d. intros Hf Hfill Hcall Hlo Hhi.
  case_decide; [|done]. case_decide; [|done]. injection Hf as <-.
  assert (Hys : ∀ p, p ∈ interpolate.argsort_pairs (zip xs ys) →
            lo <= p.2 ∧ p.2 <= hi).
  { intros [px py] Hp%argsort_pairs_elem.
    apply elem_of_zip_r in Hp. simpl.
    split; [by apply (np_min_le _ _ _ Hlo) | by apply (np_max_ge _ _ _ Hhi)]. }
  apply call_range in Hcall as [(p & q & Hp & Hq & H1 & H2)|(a & b & E & Hy)].
  - simpl in Hp, Hq. apply Hys in Hp as [? ?], Hq as [? ?].
    split.
    + eapply Qle_trans; [|exact H1]. by apply Q.min_glb.
    + eapply Qle_trans; [exact H2|]. by apply Q.max_lub.
  - simpl in E. destruct (Hfill a b E) as [Ha Hb].
    destruct Hy as [->| ->].
    + split; [by apply (np_min_le _ _ _ Hlo) | by apply (np_max_ge _ _ _ Hhi)].
    + split; [by apply (np_min_le _ _ _ Hlo) | by apply (np_max_ge _ _ _ Hhi)].
Qed.

(** X17.  Every pitch angle of a run that returns lies within the
    tabulated pitch grid: the operating pitch of every point and the
    minimum pitch of every point are between the smallest and the largest
    entry of [pitch_initial_rad]. *)
Theorem tune_controller_pitch_in_grid self_ t r ps lo hi :
  tune_controller self_ t = Some (r, ps) →
  np.min (pitch_initial_rad t) = Some lo →
  np.max (pitch_initial_rad t) = Some hi →
  (∀ i p, pitch_op r !! i = Some p → lo <= p ∧ p <= hi) ∧
  (∀ i p, pitch_min ps !! i = Some p → lo <= p ∧ p <= hi).
Proof.
  intros H Hlo Hhi.
  destruct (tune_controller_loop _ _ _ _ H)
    as (Cp0 & dCp_beta & dCp_TSR & HCp0 & Hinv).
  destruct Hinv as (_ & Lp & _ & _ & _ & Hdone).
  assert (Hps : peak_shaving self_ r t = Some ps).
  { destruct (tune_controller_inv _ _ _ _ H)
      as (_ & _ & _ & ? & ? & ? & ? & ? & ? & ? & ? & ? & ? & ? & ? & G).
    apply G. }
  destruct (peak_shaving_inv _ _ _ _ Hps)
    as (Ct_op1 & pp & T_peak & _ & _ & _ & _ & Hsh & _).
  destruct Hsh as (_ & _ & Lm & _ & Hshaved).
  split.
  - intros i p Hp.
    assert (Hi : (i < length (TSR_op r))%nat).
    { apply lookup_lt_Some in Hp. lia. }
    destruct (lookup_lt_is_Some_2 _ _ Hi) as [tsr Htsr].
    destruct (Hdone i tsr Hi Htsr)
      as (target & lo' & hi' & f & p' & _ & _ & _ & _ & Hf & Hcall & Hp'
          & _).
    rewrite Hp in Hp'. injection Hp' as <-.
    by eapply (interp1d_call_range _ _ _ _ _ _ _ _ _ Hf).
  - intros i p Hp.
    assert (Hi : (i < length (TSR_op r))%nat).
    { apply lookup_lt_Some in Hp. lia. }
    destruct (lookup_lt_is_Some_2 _ _ Hi) as [tsr Htsr].
    destruct (Hshaved i tsr Hi Htsr)
      as (v_i & T_i & pf & pl & f & cm & p' & _ & _ & _ & _ & Hpf & Hpl
          & Hf & Hcall & Hp').
    rewrite Hp in Hp'. injection Hp' as <-.
    eapply (interp1d_call_range _ _ _ _ _ _ _ _ _ Hf); try done.
    intros a b [= <- <-]. split.
    + rewrite head_lookup in Hpf. by apply list_elem_of_lookup_2 in Hpf.
    + rewrite last_lookup in Hpl. by apply list_elem_of_lookup_2 in Hpl.
Qed.

Lemma tune_controller_pitch_in_grid_witness :
  ∃ r ps,
    tune_controller example_controller example_turbine = Some (r, ps) ∧
    ∀ i p, pitch_min ps !! i = Some p → -0.1 <= p ∧ p <= 0.4.
Proof.
  destruct example_tune_returns as (r & ps & H).
  exists r, ps. split; [exact H|].
  assert (Hlo : np.min (pitch_initial_rad example_turbine) = Some (-0.1))
    by reflexivity.
  assert (Hhi : np.max (pitch_initial_rad example_turbine) = Some 0.4)
    by reflexivity.
  exact (proj2 (tune_controller_pitch_in_grid _ _ _ _ _ _ H Hlo Hhi)).
Defined.

(** X18.  What the second loop of [peak_shaving] leaves at every operating
    point, for any peak-shaving fraction, with [Tmax = ps_percent * max(T)]
    and the ceiling [Tmax / (0.5*rho*A*v[i]^2)]: where the unshaved thrust
    exceeds [Tmax], the thrust coefficient and its maximum are both the
    ceiling; elsewhere the thrust coefficient is still the one of the
    surface and its maximum is the smaller of the ceiling and the largest
    value of the slice.  In both cases the maximum is at most the
    ceiling. *)
Theorem peak_shaving_ceiling self_ c t ps pp T_peak :
  peak_shaving self_ c t = Some ps →
  as_num (ps_percent self_) = Some pp →
  np.max (T ps) = Some T_peak →
  ∀ i tsr, TSR_op c !! i = Some tsr →
    ∃ v_i T_i cm,
      v c !! i = Some v_i ∧ T ps !! i = Some T_i ∧
      Ct_max ps !! i = Some cm ∧
      cm <= Ct_ceiling t (pp * T_peak) v_i ∧
      (pp * T_peak < T_i →
         cm = Ct_ceiling t (pp * T_peak) v_i ∧ Ct_op ps !! i = Some cm) ∧
      (T_i <= pp * T_peak →
         ∃ m p,
           np.max (interp_surface_slice (Ct t) (pitch_initial_rad t) tsr)
             = Some m ∧
           cm = Qmin m (Ct_ceiling t (pp * T_peak) v_i) ∧
           pitch_op c !! i = Some p ∧
           Ct_op ps !! i = Some (interp_surface (Ct t) p tsr)).
Proof.
  intros H Hpp Hpeak i tsr Htsr.
  destruct (peak_shaving_inv_values _ _ _ _ H)
    as (Ct_op1 & pp' & T_peak' & _ & L1 & Hval & HT & Hpp' & Hpeak' & Hsh
        & _).
  rewrite Hpp in Hpp'. injection Hpp' as <-.
  rewrite Hpeak in Hpeak'. injection Hpeak' as <-.
  destruct Hsh as (_ & _ & _ & _ & Hdone).
  destruct (Hdone i tsr (lookup_lt_Some _ _ _ Htsr) Htsr)
    as (v_i & T_i & pf & pl & f & cm & p & Hvi & HTi & Hif & Hcm & _).
  destruct (Hval i tsr Htsr) as (p0 & Hp0 & HC1).
  exists v_i, T_i, cm. repeat (split; [done|]).
  destruct (interpolate.Qltb (pp * T_peak) T_i) eqn:Hcmp.
  - apply Qltb_true in Hcmp. destruct Hif as [-> Hop].
    split; [apply Qle_refl|]. split; [done|]. intros Hle. lra.
  - apply Qltb_false in Hcmp. destruct Hif as [(m & Hm & ->) Hop].
    unfold np.minimum. split; [apply Q.le_min_r|].
    split; [intros Hlt; lra|]. intros _.
    exists m, p0. rewrite Hop, HC1. done.
Qed.

Lemma peak_shaving_ceiling_witness :
  ∃ r ps,
    tune_controller example_controller example_turbine = Some (r, ps) ∧
    ∀ i tsr, TSR_op r !! i = Some tsr → is_Some (Ct_max ps !! i).
Proof.
  destruct example_tune_returns as (r & ps & H).
  exists r, ps. split; [exact H|].
  assert (Hps : peak_shaving example_controller r example_turbine
                = Some ps).
  { destruct (tune_controller_inv _ _ _ _ H)
      as (_ & _ & _ & ? & ? & ? & ? & ? & ? & ? & ? & ? & ? & ? & ? & G).
    apply G. }
  destruct (peak_shaving_inv _ _ _ _ Hps)
    as (_ & _ & T_peak & _ & _ & _ & Hpeak & _).
  assert (Hpp : as_num (ps_percent example_controller) = Some 1)
    by reflexivity.
  intros i tsr Htsr.
  destruct (peak_shaving_ceiling _ _ _ _ _ _ Hps Hpp Hpeak i tsr Htsr)
    as (v_i & T_i & cm & _ & _ & Hcm & _).
  exists cm. exact Hcm.
Defined.

(** ** Above-rated power-coefficient targets *)

(** X19.  Above rated the unconstrained power-coefficient target falls
    with the cube of the wind speed: for a rated tip speed and a rated
    wind speed that are not zero, the target times [v^3] is the same at
    every above-rated wind speed [v], namely the power coefficient at zero
    pitch and the first above-rated tip-speed ratio times [v_rated^3]. *)
Theorem Cp_op_target_cubic t Cp0 j v_j :
  Cp_op_target t = Some Cp0 →
  ¬ rated_rotor_speed t * rotor_radius t == 0 → ¬ v_rated t == 0 →
  v_above_rated_of t !! j = Some v_j → ¬ v_j == 0 →
  ∃ c tsr0,
    Cp0 !! (length (v_below_rated_of t) + j)%nat = Some c ∧
    TSR_above_rated_of t !! 0%nat = Some tsr0 ∧
    c * v_j ^ 3 == interp_surface (Cp t) 0 tsr0 * v_rated t ^ 3.
Proof.
  intros H Hc Hr Hv Hvj. unfold Cp_op_target in H.
  apply bind_Some in H as (tsr0 & Htsr0 & [= <-]).
  eexists _, tsr0. split; [|split; [done|]].
  - unfold np.concatenate. rewrite lookup_app_r.
    2:{ unfold np.ones. rewrite length_fmap, length_replicate. lia. }
    unfold np.ones. rewrite length_fmap, length_replicate.
    replace (length (v_below_rated_of t) + j - length (v_below_rated_of t))%nat
      with j by lia.
    unfold TSR_above_rated_of.
    rewrite <- list_fmap_compose, list_lookup_fmap, Hv. reflexivity.
  - unfold compose, TSR_rated. field.
    repeat split; try done.
    + intros E. apply Hc. rewrite E. ring.
    + intros E. apply Hc. rewrite E. ring.
Qed.

Lemma Cp_op_target_cubic_witness :
  ∃ Cp0 c tsr0,
    Cp_op_target example_turbine = Some Cp0 ∧
    Cp0 !! (length (v_below_rated_of example_turbine) + 1)%nat = Some c ∧
    TSR_above_rated_of example_turbine !! 0%nat = Some tsr0 ∧
    c * 12.4 ^ 3 == interp_surface example_Cp 0 tsr0 * 11.4 ^ 3.
Proof.
  destruct (Cp_op_target example_turbine) as [Cp0|] eqn:E.
  - assert (Hc : ¬ rated_rotor_speed example_turbine
                   * rotor_radius example_turbine == 0) by discriminate.
    assert (Hr : ¬ v_rated example_turbine == 0) by discriminate.
    assert (Hv : v_above_rated_of example_turbine !! 1%nat
                 = Some (11.4 + 0.5 + inject_Z (Z.of_nat 1) * 0.5))
      by reflexivity.
    assert (Hvj : ¬ 11.4 + 0.5 + inject_Z (Z.of_nat 1) * 0.5 == 0)
      by discriminate.
    destruct (Cp_op_target_cubic _ _ _ _ E Hc Hr Hv Hvj)
      as (c & tsr0 & H1 & H2 & H3).
    exists Cp0, c, tsr0. split; [reflexivity|]. split; [exact H1|].
    split; [exact H2|]. rewrite <- H3.
    assert (Ev : 11.4 + 0.5 + inject_Z (Z.of_nat 1) * 0.5 == 12.4)
      by reflexivity.
    rewrite Ev. reflexivity.
  - vm_compute in E. discriminate.
Defined.

(** ** The pitch floor does not reach the output of peak shaving *)

(** Two loops whose bodies keep a relation between their states, started
    in related states, end in related states or raise together. *)
Lemma for_range_sim {S : Type} (R : nat → S → S → Prop) n
    (body1 body2 : nat → S → option S) s1 s2 :
  R 0%nat s1 s2 →
  (∀ i x y, (i < n)%nat → R i x y →
     option_Forall2 (R (Datatypes.S i)) (body1 i x) (body2 i y)) →
  option_Forall2 (R n) (for_range n body1 s1) (for_range n body2 s2).
Proof.
  unfold for_range. intros H0 Hstep.
  induction n as [|n IH].
  - simpl. by constructor.
  - rewrite seq_S, !foldl_app. simpl.
    destruct IH as [x y Hxy|].
    + intros i a b ?. apply Hstep. lia.
    + simpl. apply Hstep; [lia | done].
    + simpl. constructor.
Qed.

(** Two states of the second loop of [peak_shaving] that differ at most in
    the entries of [pitch_min] from [k] on; [len] is the length of
    [pitch_min]. *)
Definition same_but_floor (len k : nat) (s1 s2 : list Q * list Q * list Q)
    : Prop :=
  s1.1.1 = s2.1.1 ∧ s1.1.2 = s2.1.2 ∧
  length s1.2 = len ∧ length s2.2 = len ∧
  ∀ i, (i < k)%nat → s1.2 !! i = s2.2 !! i.

Lemma store_sim i x (a b : list Q) len k :
  length a = len → length b = len →
  (∀ j, (j < k)%nat → a !! j = b !! j) → i = k →
  option_Forall2
    (λ a' b', length a' = len ∧ length b' = len ∧
              ∀ j, (j < S k)%nat → a' !! j = b' !! j)
    (store i x a) (store i x b).
Proof.
  intros La Lb Hsame ->. unfold store. rewrite La, Lb.
  case_decide; constructor. split; [|split].
  - by rewrite length_insert.
  - by rewrite length_insert.
  - intros j Hj. destruct (decide (j = k)) as [->|Hne].
    + rewrite !list_lookup_insert_eq by lia. done.
    + rewrite !list_lookup_insert_ne by done. apply Hsame. lia.
Qed.

Lemma shave_body_sim c t T Tmax len k s1 s2 :
  same_but_floor len k s1 s2 →
  option_Forall2 (same_but_floor len (S k))
    (shave_body c t T Tmax k s1) (shave_body c t T Tmax k s2).
Proof.
  destruct s1 as [[Ct_op Ct_max] pm1], s2 as [[Ct_op' Ct_max'] pm2].
  intros (E1 & E2 & L1 & L2 & Hsame). simpl in E1, E2, L1, L2, Hsame.
  subst Ct_op' Ct_max'.
  unfold shave_body. cbv zeta.
  destruct (TSR_op c !! k) as [tsr|]; simpl; [|constructor].
  destruct (v c !! k) as [v_i|]; simpl; [|constructor].
  destruct (store k _ Ct_max) as [Ct_max1|]; simpl; [|constructor].
  destruct (T !! k) as [T_i|]; simpl; [|constructor].
  match goal with
  | |- option_Forall2 _ (mbind _ ?m) _ =>
      destruct m as [[Ct_op2 Ct_max2]|]; simpl; [|constructor]
  end.
  destruct (head (pitch_initial_rad t)) as [pf|]; simpl; [|constructor].
  destruct (last (pitch_initial_rad t)) as [pl|]; simpl; [|constructor].
  destruct (interpolate.interp1d _ _ _ _) as [f|]; simpl; [|constructor].
  destruct (Ct_max2 !! k) as [cm|]; simpl; [|constructor].
  destruct (interpolate.call f cm) as [p|]; simpl; [|constructor].
  destruct (store_sim k p pm1 pm2 len k L1 L2 Hsame eq_refl)
    as [a b (Hab1 & Hab2 & Hab3)|]; simpl; constructor.
  done.
Qed.

(** X20.  The configured pitch floor does not reach the output of
    [peak_shaving]: on a trajectory with no more pitch angles than
    operating points, two controllers that agree on [ps_percent] and whose
    [min_pitch] are numbers get the same result, or the same failure,
    whatever the two floors are. *)
Theorem peak_shaving_ignores_floor self1 self2 c t :
  ps_percent self1 = ps_percent self2 →
  is_Some (as_num (min_pitch self1)) →
  is_Some (as_num (min_pitch self2)) →
  (length (pitch_op c) ≤ length (TSR_op c))%nat →
  peak_shaving self1 c t = peak_shaving self2 c t.
Proof.
  intros Hps [m1 Hm1] [m2 Hm2] Hlen.
  unfold peak_shaving. cbv zeta. rewrite Hps, Hm1, Hm2.
  destruct (for_range _ (unshaved_body c t) _) as [[Ct_op1 T0]|];
    simpl; [|done].
  destruct T0 as [T1|]; simpl; [|done].
  destruct (as_num (ps_percent self2)) as [pp|]; simpl; [|done].
  destruct (np.max T1) as [T_peak|]; simpl; [|done].
  set (n := length (TSR_op c)) in *.
  pose proof (for_range_sim (same_but_floor (length (pitch_op c))) n
                (shave_body c t T1 (pp * T_peak))
                (shave_body c t T1 (pp * T_peak))
                (Ct_op1, np.empty n,
                 (λ x, x * m1) <$> np.ones (length (pitch_op c)))
                (Ct_op1, np.empty n,
                 (λ x, x * m2) <$> np.ones (length (pitch_op c)))) as Hsim.
  destruct Hsim
    as [[[a1 b1] p1] [[a2 b2] p2] (E1 & E2 & L1 & L2 & Hsame)|].
  - unfold same_but_floor, np.ones. simpl.
    rewrite !length_fmap, !length_replicate.
    repeat split; try done. intros i Hi. lia.
  - intros i x y _. apply shave_body_sim.
  - simpl in E1, E2, L1, L2, Hsame. subst a2 b2.
    assert (Ep : p1 = p2).
    { apply list_eq. intros i.
      destruct (decide (i < n)%nat) as [Hi|Hi]; [by apply Hsame|].
      rewrite !lookup_ge_None_2 by lia. done. }
    subst p2. done.
  - done.
Qed.

Lemma peak_shaving_ignores_floor_witness :
  ∃ r ps,
    tune_controller example_controller example_turbine = Some (r, ps) ∧
    peak_shaving example_controller r example_turbine
    = peak_shaving
        {| LoggingLevel := PyNum 1; F_LPFType := PyNum 1;
           F_NotchType := PyNum 0; IPC_ControlMode := PyNum 0;
           VS_ControlMode := PyNum 2; PC_ControlMode := PyNum 1;
           Y_ControlMode := PyNum 0; SS_Mode := PyNum 1;
           WE_Mode := PyNum 0; PS_Mode := PyNum 0;
           zeta_pc := PyNum 0.7; omega_pc := PyNum 0.6;
           zeta_vs := PyNum 0.7; omega_vs := PyNum 0.3;
           min_pitch := PyNum 0.05; max_pitch := PyNum 1.5;
           ss_vsgain := PyNum 1; ss_pcgain := PyNum 0.001;
           ss_cornerfreq := PyNum 0.6; ps_percent := PyNum 1 |}
        r example_turbine.
Proof.
  destruct example_tune_returns as (r & ps & H).
  exists r, ps. split; [exact H|].
  apply peak_shaving_ignores_floor.
  - reflexivity.
  - simpl. eauto.
  - simpl. eauto.
  - pose proof (tune_controller_shape _ _ _ _ H) as G. cbv zeta in G.
    destruct G as (_ & _ & G1 & _ & G2 & _). rewrite G1, G2. lia.
Defined.

(** ** Inverting a slice at a tabulated value *)

(** Samples in strictly increasing order of abscissa. *)
Fixpoint strict_sorted (l : list (Q * Q)) : Prop :=
  match l with
  | [] => True
  | p :: l' => (∀ q, q ∈ l' → p.1 < q.1) ∧ strict_sorted l'
  end.

(** Numbers that are pairwise different. *)
Fixpoint pairwise_distinct (xs : list Q) : Prop :=
  match xs with
  | [] => True
  | a :: xs' => (∀ b, b ∈ xs' → ¬ a == b) ∧ pairwise_distinct xs'
  end.

Lemma insert_sorted_mono p q (l : list (Q * Q)) :
  q = p ∨ q ∈ l → q ∈ interpolate.insert_sorted p l.
Proof.
  induction l as [|a l IH]; simpl.
  - intros [->|Hq]; [apply elem_of_cons; by left|].
    by apply elem_of_nil in Hq.
  - destruct (Qle_bool a.1 p.1).
    + intros [->|[->|Hq]%elem_of_cons].
      * apply elem_of_cons. right. apply IH. by left.
      * apply elem_of_cons. by left.
      * apply elem_of_cons. right. apply IH. by right.
    + intros [->|Hq]; apply elem_of_cons; [by left | by right].
Qed.

Lemma argsort_pairs_mono q (l : list (Q * Q)) :
  q ∈ l → q ∈ interpolate.argsort_pairs l.
Proof.
  unfold interpolate.argsort_pairs.
  assert (G : ∀ acc, q ∈ acc ∨ q ∈ l →
            q ∈ foldl (λ acc p, interpolate.insert_sorted p acc) acc l).
  { induction l as [|a l IH]; intros acc; simpl.
    - intros [?|Hn]; [done | by apply elem_of_nil in Hn].
    - intros [Hq|[->|Hq]%elem_of_cons]; apply IH.
      + left. apply insert_sorted_mono. by right.
      + left. apply insert_sorted_mono. by left.
      + by right. }
  intros Hq. apply G. by right.
Qed.

Lemma insert_sorted_strict p (l : list (Q * Q)) :
  strict_sorted l → (∀ q, q ∈ l → ¬ q.1 == p.1) →
  strict_sorted (interpolate.insert_sorted p l).
Proof.
  induction l as [|a l IH]; simpl.
  - intros _ _. split; [|done]. intros q Hq. by apply elem_of_nil in Hq.
  - intros [Ha Hl] Hd. destruct (Qle_bool a.1 p.1) eqn:E.
    + apply Qle_bool_iff in E.
      assert (Hap : a.1 < p.1).
      { apply Qle_lteq in E as [?|E]; [done|].
        exfalso. apply (Hd a); [apply elem_of_cons; by left | done]. }
      split.
      * intros q [->|Hq]%insert_sorted_elem; [done | by apply Ha].
      * apply IH; [done|]. intros q Hq. apply Hd, elem_of_cons. by right.
    + assert (Hpa : p.1 < a.1).
      { apply Qnot_le_lt. intros Hle. apply Qle_bool_iff in Hle.
        congruence. }
      split; [|by split].
      intros q [->|Hq]%elem_of_cons; [done|].
      specialize (Ha q Hq). lra.
Qed.

Lemma argsort_pairs_strict (xs ys : list Q) :
  pairwise_distinct xs →
  strict_sorted (interpolate.argsort_pairs (zip xs ys)).
Proof.
  unfold interpolate.argsort_pairs. intros Hd.
  assert (G : ∀ (l : list (Q * Q)) acc,
            strict_sorted acc →
            (∀ a q, a ∈ acc → q ∈ l → ¬ a.1 == q.1) →
            pairwise_distinct (fst <$> l) →
            strict_sorted
              (foldl (λ acc p, interpolate.insert_sorted p acc) acc l)).
  { induction l as [|p l IH]; intros acc Hs Hacc Hl; simpl; [done|].
    destruct Hl as [Hp Hl]. apply IH; [| |done].
    - apply insert_sorted_strict; [done|].
      intros q Hq. apply Hacc; [done | apply elem_of_cons; by left].
    - intros a q [->|Ha]%insert_sorted_elem Hq.
      + apply Hp. apply list_elem_of_fmap. by exists q.
      + apply Hacc; [done | apply elem_of_cons; by right]. }
  apply G; [done| |].
  - intros a q Ha. by apply elem_of_nil in Ha.
  - clear G. revert ys. induction xs as [|x xs IH]; intros [|y ys];
      simpl; try done.
    destruct Hd as [Hx Hd]. split; [|by apply IH].
    intros b Hb. apply Hx.
    apply list_elem_of_fmap in Hb as ([b1 b2] & -> & Hb).
    by apply elem_of_zip_l in Hb.
Qed.

Lemma strict_sorted_lookup_lt (l : list (Q * Q)) i j p q :
  strict_sorted l → (i < j)%nat →
  l !! i = Some p → l !! j = Some q → p.1 < q.1.
Proof.
  revert i j. induction l as [|a l IH]; intros i j Hs Hij Hi Hj; [done|].
  destruct Hs as [Ha Hl]. destruct j as [|j]; [lia|].
  simpl in Hj. destruct i as [|i].
  - injection Hi as <-. apply Ha. by apply list_elem_of_lookup_2 in Hj.
  - simpl in Hi. apply (IH i j); [done|lia|done|done].
Qed.

Lemma searchsorted_knot (l : list (Q * Q)) k a b x :
  strict_sorted l → l !! k = Some (a, b) → x == a →
  interpolate.searchsorted l x = k.
Proof.
  revert k. induction l as [|p l IH]; intros k Hs Hk Hx; [done|].
  destruct Hs as [Hp Hl]. simpl. unfold interpolate.Qltb.
  destruct k as [|k].
  - injection Hk as ->. simpl.
    assert (E : Qle_bool x a = true) by (apply Qle_bool_iff; lra).
    by rewrite E.
  - simpl in Hk.
    assert (Hlt : p.1 < a).
    { apply (Hp (a, b)). by apply list_elem_of_lookup_2 in Hk. }
    destruct (Qle_bool x p.1) eqn:E.
    + apply Qle_bool_iff in E. lra.
    + simpl. f_equal. by apply IH.
Qed.

(** An interpolant with strictly increasing abscissae returns, at the
    abscissa of a sample, the ordinate of that sample. *)
Lemma call_knot f x y k a b :
  strict_sorted (interpolate.xy f) →
  interpolate.xy f !! k = Some (a, b) → x == a →
  interpolate.call f x = Some y → y == b.
Proof.
  intros Hs Hk Hx H. unfold interpolate.call in H. cbv zeta in H.
  rewrite (searchsorted_knot _ _ _ _ _ Hs Hk Hx) in H.
  set (l := interpolate.xy f) in *.
  pose proof (lookup_lt_Some _ _ _ Hk) as Hlen.
  apply bind_Some in H as ([x_lo y_lo] & Hlo & H).
  apply bind_Some in H as ([x_hi y_hi] & Hhi & H).
  apply bind_Some in H as ([x_first y_first] & Hfirst & H).
  apply bind_Some in H as ([x_last y_last] & Hlast & H).
  rewrite head_lookup in Hfirst. rewrite last_lookup in Hlast.
  assert (Hb : interpolate.Qltb x x_first = false).
  { unfold interpolate.Qltb. apply negb_false_iff, Qle_bool_iff.
    destruct k as [|k].
    - rewrite Hk in Hfirst. injection Hfirst as <- <-. lra.
    - pose proof (strict_sorted_lookup_lt l 0 (S k) _ _ Hs ltac:(lia)
                    Hfirst Hk) as Hlt. simpl in Hlt. lra. }
  assert (Ha : interpolate.Qltb x_last x = false).
  { unfold interpolate.Qltb. apply negb_false_iff, Qle_bool_iff.
    destruct (decide (k = pred (length l))) as [->|Hne].
    - rewrite Hk in Hlast. injection Hlast as <- <-. lra.
    - pose proof (strict_sorted_lookup_lt l k (pred (length l)) _ _ Hs
                    ltac:(lia) Hk Hlast) as Hlt. simpl in Hlt. lra. }
  rewrite Hb, Ha in H. simpl in H.
  assert (Hy : y = (y_hi - y_lo) / (x_hi - x_lo) * (x - x_lo) + y_lo).
  { destruct (interpolate.bounds_error f);
      [|destruct (interpolate.fill_value f) as [[? ?]|]];
      by injection H as <-. }
  rewrite Hy. clear H Hy.
  destruct k as [|k].
  - replace (Nat.min (Nat.max 0 1) (length l - 1) - 1)%nat with 0%nat
      in Hlo by lia.
    rewrite Hk in Hlo. injection Hlo as <- <-.
    assert (E : x - a == 0) by lra.
    rewrite E. ring.
  - replace (Nat.min (Nat.max (S k) 1) (length l - 1))%nat with (S k)
      in Hlo, Hhi by lia.
    rewrite Hk in Hhi. injection Hhi as <- <-.
    simpl in Hlo. rewrite Nat.sub_0_r in Hlo.
    pose proof (strict_sorted_lookup_lt l k (S k) _ _ Hs ltac:(lia)
                  Hlo Hk) as Hlt. simpl in Hlt.
    rewrite Hx. field. lra.
Qed.

(** Inverting [ys] as a function of pairwise different [xs] at a tabulated
    abscissa gives the ordinate tabulated with it. *)
Lemma interp1d_knot (xs ys : list Q) be fill f k a b x y :
  interpolate.interp1d xs ys be fill = Some f →
  pairwise_distinct xs →
  xs !! k = Some a → ys !! k = Some b → x == a →
  interpolate.call f x = Some y → y == b.
Proof.
  unfold interpolate.interp1d. intros Hf Hd Ha Hb Hx Hcall.
  case_decide; [|done]. case_decide; [|done]. injection Hf as <-.
  assert (Hin : (a, b) ∈ interpolate.argsort_pairs (zip xs ys)).
  { apply argsort_pairs_mono. apply list_elem_of_lookup_2 with k.
    by rewrite lookup_zip_with, Ha, Hb. }
  apply list_elem_of_lookup_1 in Hin as [k' Hk'].
  refine (call_knot (interpolate.Build_interp1d_obj _ be fill) x y k' a b
            _ Hk' Hx Hcall).
  by apply argsort_pairs_strict.
Qed.

(** X21.  The pitch of an operating point inverts its power-coefficient
    slice exactly at the tabulated values: when the values of the slice
    are pairwise different and the saturated target of the point equals the
    value of the slice at the [k]-th tabulated pitch, the operating pitch is
    that tabulated pitch. *)
Theorem tune_controller_pitch_at_tabulated self_ t r ps i tsr k c beta
    cp p :
  tune_controller self_ t = Some (r, ps) →
  TSR_op r !! i = Some tsr →
  pairwise_distinct
    (interp_surface_slice (Cp t) (pitch_initial_rad t) tsr) →
  interp_surface_slice (Cp t) (pitch_initial_rad t) tsr !! k = Some c →
  pitch_initial_rad t !! k = Some beta →
  Cp_op r !! i = Some cp → cp == c →
  pitch_op r !! i = Some p →
  p == beta.
Proof.
  intros H Htsr Hd Hc Hbeta Hcp Heq Hp.
  destruct (tune_controller_loop _ _ _ _ H)
    as (Cp0 & dCp_beta & dCp_TSR & HCp0 & Hinv).
  destruct Hinv as (_ & _ & _ & _ & _ & Hdone).
  destruct (Hdone i tsr (lookup_lt_Some _ _ _ Htsr) Htsr)
    as (target & lo & hi & f & p' & _ & _ & _ & Hcp' & Hf & Hcall & Hp'
        & _).
  rewrite Hcp in Hcp'. injection Hcp' as Hcp'. rewrite <- Hcp' in Hcall.
  rewrite Hp in Hp'. injection Hp' as Hp'. rewrite <- Hp' in Hcall.
  exact (interp1d_knot _ _ _ _ _ _ _ _ _ _ Hf Hd Hc Hbeta Heq Hcall).
Qed.

(** X22.  The minimum pitch of an operating point inverts its
    thrust-coefficient slice exactly at the tabulated values: when the
    values of the slice are pairwise different and the maximum thrust
    coefficient of the point equals the value of the slice at the [k]-th
    tabulated pitch, the minimum pitch is that tabulated pitch. *)
Theorem peak_shaving_pitch_at_tabulated self_ c t ps i tsr k ct beta cm p :
  peak_shaving self_ c t = Some ps →
  TSR_op c !! i = Some tsr →
  pairwise_distinct
    (interp_surface_slice (Ct t) (pitch_initial_rad t) tsr) →
  interp_surface_slice (Ct t) (pitch_initial_rad t) tsr !! k = Some ct →
  pitch_initial_rad t !! k = Some beta →
  Ct_max ps !! i = Some cm → cm == ct →
  pitch_min ps !! i = Some p →
  p == beta.
Proof.
  intros H Htsr Hd Hc Hbeta Hcm Heq Hp.
  destruct (peak_shaving_inv _ _ _ _ H)
    as (Ct_op1 & pp & T_peak & _ & _ & _ & _ & Hsh & _).
  destruct Hsh as (_ & _ & _ & _ & Hdone).
  destruct (Hdone i tsr (lookup_lt_Some _ _ _ Htsr) Htsr)
    as (v_i & T_i & pf & pl & f & cm' & p' & _ & _ & _ & Hcm' & _ & _ & Hf
        & Hcall & Hp').
  rewrite Hcm in Hcm'. injection Hcm' as Hcm'. rewrite <- Hcm' in Hcall.
  rewrite Hp in Hp'. injection Hp' as Hp'. rewrite <- Hp' in Hcall.
  exact (interp1d_knot _ _ _ _ _ _ _ _ _ _ Hf Hd Hc Hbeta Heq Hcall).
Qed.

Fixpoint pairwise_distinctb (xs : list Q) : bool :=
  match xs with
  | [] => true
  | a :: xs' =>
      forallb (λ b, negb (Qeq_bool a b)) xs' && pairwise_distinctb xs'
  end.

Lemma pairwise_distinctb_spec xs :
  pairwise_distinctb xs = true → pairwise_distinct xs.
Proof.
  induction xs as [|a xs IH]; [done|]. simpl.
  intros [Ha Hxs]%andb_true_iff. split; [|by apply IH].
  intros b Hb E. rewrite forallb_forall in Ha.
  apply list_elem_of_In in Hb. specialize (Ha b Hb).
  apply negb_true_iff in Ha. apply Qeq_bool_iff in E. congruence.
Qed.

(** What the linearisation loop has used and stored at a below-rated
    point. *)
Lemma tune_controller_below_rated_point self_ t r ps k :
  tune_controller self_ t = Some (r, ps) →
  (k < length (v_below_rated r))%nat →
  TSR_op r !! k = Some (1 * TSR_opt (Cp t)) ∧
  ∃ lo hi p,
    np.min (interp_surface_slice (Cp t) (pitch_initial_rad t)
              (1 * TSR_opt (Cp t))) = Some lo ∧
    np.max (interp_surface_slice (Cp t) (pitch_initial_rad t)
              (1 * TSR_opt (Cp t))) = Some hi ∧
    Cp_op r !! k = Some (np.clip (1 * surf_max (Cp t)) lo hi) ∧
    pitch_op r !! k = Some p.
Proof.
  intros H Hk.
  destruct (tune_controller_loop _ _ _ _ H)
    as (Cp0 & dCp_beta & dCp_TSR & HCp0 & Hinv).
  destruct (tune_controller_inv _ _ _ _ H) as (_ & Hb & HT & _).
  rewrite Hb in Hk.
  assert (HTk : TSR_op r !! k = Some (1 * TSR_opt (Cp t))).
  { rewrite HT. unfold TSR_below_rated_of. by apply scaled_ones_lookup. }
  assert (HCk : Cp0 !! k = Some (1 * surf_max (Cp t))).
  { unfold Cp_op_target in HCp0.
    apply bind_Some in HCp0 as (tsr0 & _ & [= <-]).
    unfold np.concatenate. by apply scaled_ones_lookup. }
  split; [exact HTk|].
  destruct Hinv as (_ & _ & _ & _ & _ & Hdone).
  destruct (Hdone k _ (lookup_lt_Some _ _ _ HTk) HTk)
    as (target & lo & hi & f & p & Ht & Hlo & Hhi & HC & Hf & Hp & Hpo
        & _).
  rewrite HCk in Ht. injection Ht as <-.
  exists lo, hi, p. done.
Qed.

Lemma tune_controller_pitch_at_tabulated_witness :
  ∃ r ps p,
    tune_controller example_controller example_turbine = Some (r, ps) ∧
    pitch_op r !! 0%nat = Some p ∧ p == 0.
Proof.
  destruct example_tune_returns as (r & ps & H).
  pose proof (tune_controller_wind_grid_length _ _ _ _ H) as Hn.
  assert (E : (0 < length (v_below_rated r))%nat).
  { rewrite Hn. vm_compute. lia. }
  destruct (tune_controller_below_rated_point _ _ _ _ 0%nat H E)
    as (Htsr & lo & hi & p & Hlo & Hhi & HC & Hpo).
  exists r, ps, p. split; [exact H|]. split; [exact Hpo|].
  vm_compute in Hlo. injection Hlo as Hlo.
  vm_compute in Hhi. injection Hhi as Hhi.
  refine (tune_controller_pitch_at_tabulated example_controller
            example_turbine r ps 0%nat _ 1%nat
            (0.48 - 0 - (1 * 7.5 - 7.5) ^ 2 / 100) 0 _ p H Htsr _ _ _ HC
            _ Hpo).
  - apply pairwise_distinctb_spec. vm_compute. reflexivity.
  - reflexivity.
  - reflexivity.
  - rewrite <- Hlo, <- Hhi. vm_compute. reflexivity.
Defined.

(** Two operating points at a tip-speed ratio of 9, at wind speeds of 3 and
    4 m/s and pitch angles of 0 and 0.1 rad. *)
Definition two_point_tuned : Tuned := {|
  pc_gain_schedule := {| Kp := []; Ki := [] |};
  vs_gain_schedule := {| Kp := []; Ki := [] |};
  vs_rgn2K := 0; vs_refspd := 0; vs_minspd := 0;
  v := [3; 4]; v_below_rated := [3; 4]; Cp_op := [0.48; 0.38];
  pitch_op := [0; 0.1]; pitch_op_pc := []; TSR_op := [9; 9];
  A := []; B_beta := []; B_tau := []
|}.

Lemma peak_shaving_pitch_at_tabulated_witness :
  ∃ ps p,
    peak_shaving example_controller two_point_tuned example_turbine
      = Some ps ∧
    pitch_min ps !! 1%nat = Some p ∧ p == 0.1.
Proof.
  destruct (peak_shaving example_controller two_point_tuned
              example_turbine) as [ps|] eqn:H;
    [|vm_compute in H; discriminate].
  assert (Hcm : is_Some (Ct_max ps !! 1%nat)).
  { destruct (peak_shaving_inv _ _ _ _ H)
      as (? & ? & ? & _ & _ & _ & _ & (_ & L & _) & _).
    apply lookup_lt_is_Some. rewrite L. simpl. lia. }
  assert (Hp : is_Some (pitch_min ps !! 1%nat)).
  { destruct (peak_shaving_inv _ _ _ _ H)
      as (? & ? & ? & _ & _ & _ & _ & (_ & _ & L & _) & _).
    apply lookup_lt_is_Some. rewrite L. simpl. lia. }
  destruct Hcm as [cm Hcm]. destruct Hp as [p Hp].
  exists ps, p. split; [reflexivity|]. split; [exact Hp|].
  refine (peak_shaving_pitch_at_tabulated example_controller
            two_point_tuned example_turbine ps 1%nat 9 2%nat
            (0.8 - 2 * 0.1) 0.1 cm p H _ _ _ _ Hcm _ Hp).
  - reflexivity.
  - apply pairwise_distinctb_spec. vm_compute. reflexivity.
  - reflexivity.
  - reflexivity.
  - vm_compute in H. injection H as <-. simpl in Hcm.
    injection Hcm as <-. vm_compute. reflexivity.
Defined.
